(** * restroom: incremental timeline fetcher, cache store and aggregator

    A shallow embedding of [main.go].  The program is sequential Go code
    that talks to a file ([restroom.json]), to the remote timeline API and
    to the standard streams.  Those effects are threaded explicitly through
    a [world] value by a small state-and-exit monad; [os.Exit] (reached
    through [log.Fatalf] or from [main]) ends the computation at once, so
    whatever would have run afterwards, deferred calls included, does not
    run. *)

From Stdlib Require Import ZArith String Ascii DecimalString Lia.
From stdpp Require Import gmap strings list fin_maps sorting.

Local Open Scope Z_scope.
Local Open Scope string_scope.
Local Open Scope list_scope.

(** ** Machine integers

    Go's [int64] (and [int] on the 64-bit targets) wraps around silently. *)
Module Int64.
Definition min : Z := - 2 ^ 63.
Definition max : Z := 2 ^ 63 - 1.
Definition wrap (z : Z) : Z := (z + 2 ^ 63) `mod` 2 ^ 64 - 2 ^ 63.
Definition add (x y : Z) : Z := wrap (x + y).
Definition sub (x y : Z) : Z := wrap (x - y).
End Int64.

(** [strconv.FormatInt(z, 10)]. *)
Definition FormatInt (z : Z) : string := NilZero.string_of_int (Z.to_int z).

(** [len(s)] of a Go string is its number of bytes. *)
Definition len (s : string) : Z := Z.of_nat (String.length s).

(** ** Time

    A [time.Time] is an instant together with a location.  It is kept as
    the number of seconds from 1970-01-01T00:00:00 UTC to the instant and
    the offset of the location, in seconds east of UTC, at that instant.
    [Hour] and [Weekday] read the clock of the value's own location, as
    Go's methods do; [UTC] is the same instant in the UTC location.  Day 0
    was a Thursday; [time.Sunday] is 0. *)
Record Time := mkTime {
  unix : Z;
  zone : Z
}.

(** An instant given in seconds, in the UTC location. *)
Definition at_utc (s : Z) : Time := mkTime s 0.
Coercion at_utc : Z >-> Time.

(** The seconds that the clock of the value's own location shows. *)
Definition wall (t : Time) : Z := unix t + zone t.

Definition Hour (t : Time) : Z := (wall t `mod` 86400) `div` 3600.
Definition Weekday (t : Time) : Z := (wall t `div` 86400 + 4) `mod` 7.

(** [t.UTC()]. *)
Definition UTC (t : Time) : Time := mkTime (unix t) 0.

Definition Sunday : Z := 0.
Definition Monday : Z := 1.
Definition Tuesday : Z := 2.
Definition Wednesday : Z := 3.
Definition Thursday : Z := 4.
Definition Friday : Z := 5.
Definition Saturday : Z := 6.

(** [time.Weekday(i).String()]. *)
Definition Weekday_String (i : Z) : string :=
  nth (Z.to_nat i)
      ["Sunday"; "Monday"; "Tuesday"; "Wednesday"; "Thursday"; "Friday";
       "Saturday"]
      ("%!Weekday(" +:+ FormatInt i +:+ ")").

(** ** Data model *)

Definition error := string.

Record Tweet := mkTweet {
  CreatedAt : Time;
  Id : Z;
  Place : string
}.

Record cache := mkCache {
  Users : gmap string (list Tweet)
}.

(** [c.Users[user]]: reading a key that is not in a Go map yields the nil
    slice. *)
Definition history (c : cache) (user : string) : list Tweet :=
  default [] (Users c !! user).

(** The part of the client library's tweet that the program reads. *)
Module anaconda.
Record Place := mkPlace { Name : string }.
Record Tweet := mkTweet {
  CreatedAt : string;
  Id : Z;
  Place_ : Place
}.
End anaconda.

(** [url.Values]. *)
Abbreviation Values := (gmap string (list string)).

(** ** Library functions taken as given

    These come from the Go standard library; the program only depends on
    their results. *)
(** What [json.NewDecoder(f).Decode(c)] did.  The decoder first reads one
    complete JSON value and gives up, storing nothing, when the input is
    not well-formed; only then does it unmarshal the value into [c]. *)
Inductive decoded :=
| SyntaxError (err : error)
| Stored (users : option (gmap string (list Tweet))) (err : option error).

Class Libs := {
  (** [time.Parse(time.RubyDate, s)], which is what the client library's
      [CreatedAtTime] returns. *)
  ParseRubyDate : string -> Time + error;
  (** [json.Marshal(c)]. *)
  Marshal : cache -> string + error;
  (** [Decode] on a file holding [data], for a [c] whose [Users] is the
      given map; [Stored users err] carries the [Users] field afterwards
      ([None] for a nil map) and the error returned. *)
  Decode : string -> gmap string (list Tweet) -> decoded;
  (** [utf8.RuneCountInString]. *)
  RuneCountInString : string -> Z
}.

(** ** The world *)

Inductive arg := AInt (z : Z) | AStr (s : string).

(** One formatted print: the format as written in the source and its
    operands. *)
Record printed := Printf { fmt : string; args : list arg }.

Definition response : Type := list anaconda.Tweet * option error.

Record world := World {
  (** files by path *)
  files : gmap string string;
  (** [None] when files can be opened for writing; otherwise the error
      with which every attempt to open one for writing fails *)
  write_error : option error;
  (** data handed to [ioutil.WriteFile], oldest first *)
  written : list (string * string);
  (** the remote timeline operation: its answer to the [n]-th request
      (from 0) of this process *)
  twitter : nat -> Values -> response;
  (** requests issued so far, oldest first *)
  requests : list Values;
  (** the client library's package-level consumer key and secret *)
  consumer : string * string;
  (** API sessions opened and not yet closed *)
  sessions : list (string * string);
  (** whether [log] output still goes to stderr *)
  logging : bool;
  stderr : list printed;
  stdout : list printed;
  (** the cache object [c] allocated by [load] *)
  heap : cache
}.

Definition set_files f (w : world) : world :=
  World f (write_error w) (written w) (twitter w) (requests w) (consumer w)
        (sessions w) (logging w) (stderr w) (stdout w) (heap w).
Definition set_written x (w : world) : world :=
  World (files w) (write_error w) x (twitter w) (requests w) (consumer w)
        (sessions w) (logging w) (stderr w) (stdout w) (heap w).
Definition set_requests x (w : world) : world :=
  World (files w) (write_error w) (written w) (twitter w) x (consumer w)
        (sessions w) (logging w) (stderr w) (stdout w) (heap w).
Definition set_consumer x (w : world) : world :=
  World (files w) (write_error w) (written w) (twitter w) (requests w) x
        (sessions w) (logging w) (stderr w) (stdout w) (heap w).
Definition set_sessions x (w : world) : world :=
  World (files w) (write_error w) (written w) (twitter w) (requests w)
        (consumer w) x (logging w) (stderr w) (stdout w) (heap w).
Definition set_logging x (w : world) : world :=
  World (files w) (write_error w) (written w) (twitter w) (requests w)
        (consumer w) (sessions w) x (stderr w) (stdout w) (heap w).
Definition set_stderr x (w : world) : world :=
  World (files w) (write_error w) (written w) (twitter w) (requests w)
        (consumer w) (sessions w) (logging w) x (stdout w) (heap w).
Definition set_stdout x (w : world) : world :=
  World (files w) (write_error w) (written w) (twitter w) (requests w)
        (consumer w) (sessions w) (logging w) (stderr w) x (heap w).
Definition set_heap x (w : world) : world :=
  World (files w) (write_error w) (written w) (twitter w) (requests w)
        (consumer w) (sessions w) (logging w) (stderr w) (stdout w) x.

(** ** The monad *)

Inductive res (A : Type) :=
| Val (a : A)
| Exit (code : Z).
Arguments Val {A} a.
Arguments Exit {A} code.

Definition M (A : Type) : Type := world -> res A * world.

#[global] Instance M_ret : MRet M := fun A a w => (Val a, w).

#[global] Instance M_bind : MBind M := fun A B k m w =>
  match m w with
  | (Val a, w') => k a w'
  | (Exit code, w') => (Exit code, w')
  end.

Definition modify (f : world -> world) : M unit := fun w => (Val tt, f w).
Definition gets {A} (f : world -> A) : M A := fun w => (Val (f w), w).

(** [os.Exit(code)]. *)
Definition os_Exit {A} (code : Z) : M A := fun w => (Exit code, w).

(** [defer d] at the head of [body]: [d] runs when [body] returns, after
    its result is fixed; it does not run when [body] exits the process. *)
Definition defer {A} (d : M unit) (body : M A) : M A :=
  a ← body; d;; mret a.

(** ** Operations on the world *)

(** The world after one [log.Printf]. *)
Definition logged (f : string) (a : list arg) (w : world) : world :=
  if logging w then set_stderr (stderr w ++ [Printf f a]) w else w.

Definition log_Printf (f : string) (a : list arg) : M unit :=
  modify (logged f a).

(** [log.Fatalf] is [log.Printf] followed by [os.Exit(1)]. *)
Definition log_Fatalf {A} (f : string) (a : list arg) : M A :=
  log_Printf f a;; os_Exit 1.

(** [log.SetOutput(ioutil.Discard)]. *)
Definition log_Discard : M unit := modify (set_logging false).

Definition fmt_Printf (f : string) (a : list arg) : M unit :=
  modify (fun w => set_stdout (stdout w ++ [Printf f a]) w).

Definition fmt_Fprintf_Stderr (f : string) (a : list arg) : M unit :=
  modify (fun w => set_stderr (stderr w ++ [Printf f a]) w).

(** [os.Open(path)] followed by reading the file through. *)
Definition os_Open (path : string) : M (option string) :=
  gets (fun w => files w !! path).

(** [ioutil.WriteFile(path, data, 0600)].  The one failure that is modelled
    is that of opening the file, before anything is written. *)
Definition ioutil_WriteFile (path data : string) : M (option error) :=
  fun w =>
    let w := set_written (written w ++ [(path, data)]) w in
    match write_error w with
    | Some e => (Val (Some e), w)
    | None => (Val None, set_files (<[path := data]> (files w)) w)
    end.

Definition anaconda_SetConsumerKey (k : string) : M unit :=
  modify (fun w => set_consumer (k, snd (consumer w)) w).
Definition anaconda_SetConsumerSecret (s : string) : M unit :=
  modify (fun w => set_consumer (fst (consumer w), s) w).
Definition anaconda_NewTwitterApi (token tokenSecret : string) : M unit :=
  modify (fun w => set_sessions ((token, tokenSecret) :: sessions w) w).
Definition api_Close : M unit :=
  modify (fun w => set_sessions (tail (sessions w)) w).

(** [api.GetUserTimeline(v)]. *)
Definition api_GetUserTimeline (v : Values) : M response :=
  fun w =>
    (Val (twitter w (length (requests w)) v),
     set_requests (requests w ++ [v]) w).

(** What one pass through the body of the [for] loop asks for next. *)
Inductive ctl (St : Type) :=
| Next (st : St)
| Break
| Return (err : error).
Arguments Next {St} st.
Arguments Break {St}.
Arguments Return {St} err.

(** The locals that live across iterations. *)
Record locals := mkLocals {
  v : Values;
  first : bool;
  ids : gset Z
}.

Section Program.
Context `{Libs}.

(** ** Cache store *)

Definition load : M unit :=
  let c := mkCache ∅ in
  f ← os_Open "restroom.json";
  match f with
  | None => modify (set_heap c)
  | Some data =>
      (* _ = d.Decode(c) *)
      let c :=
        match Decode data (Users c) with
        | SyntaxError _ => c
        | Stored users _ =>
            match users with
            | None => mkCache ∅
            | Some m => mkCache m
            end
        end in
      modify (set_heap c)
  end.

Definition save : M unit :=
  c ← gets heap;
  match Marshal c with
  | inr err => log_Fatalf "json: %v" [AStr err]
  | inl b => ioutil_WriteFile "restroom.json" b;; mret tt
  end.

(** ** Pagination fetcher *)

Definition base_values (user : string) : Values :=
  <["contributor_details" := ["0"]]> (
  <["count" := ["200"]]> (
  <["exclude_replies" := ["0"]]> (
  <["trim_user" := ["1"]]> (
  <["include_rts" := ["1"]]> (
  <["screen_name" := [user]]> ∅))))).

(** [tweet.CreatedAtTime()]. *)
Definition CreatedAtTime (tweet : anaconda.Tweet) : Time + error :=
  ParseRubyDate (anaconda.CreatedAt tweet).

(** [c.Users[user] = append(c.Users[user], t)]. *)
Definition append_tweet (user : string) (t : Tweet) : M unit :=
  modify (fun w =>
    let c := heap w in
    set_heap (mkCache (<[user := history c user ++ [t]]> (Users c))) w).

(** [for _, tweet := range timeline { ... }]. *)
Fixpoint merge (user : string) (timeline : list anaconda.Tweet)
    (ids : gset Z) : M (gset Z) :=
  match timeline with
  | [] => mret ids
  | tweet :: timeline =>
      if decide (anaconda.Id tweet ∈ ids) then merge user timeline ids
      else
        let ids := {[anaconda.Id tweet]} ∪ ids in
        match CreatedAtTime tweet with
        | inr err => log_Fatalf "time: %v" [AStr err]
        | inl t =>
            append_tweet user
              (mkTweet t (anaconda.Id tweet)
                       (anaconda.Name (anaconda.Place_ tweet)));;
            merge user timeline ids
        end
  end.

(** The value of [v] when the request is issued. *)
Definition with_cursor (user : string) (v : Values) : M Values :=
  c ← gets heap;
  match last (history c user) with
  | None => mret v
  | Some t =>
      (* Assumes tweets are in order. *)
      let m := FormatInt (Int64.sub (Id t) 1) in
      log_Printf "using max_id %s" [AStr m];;
      mret (<["max_id" := [m]]> v)
  end.

Definition iteration (user : string) (st : locals) : M (ctl locals) :=
  v ← with_cursor user (v st);
  log_Printf "Fetching" [];;
  r ← api_GetUserTimeline v;
  let '(timeline, err) := r in
  log_Printf "Retrieved %d tweets" [AInt (Z.of_nat (length timeline))];;
  match err, first st with
  | Some e, true => mret (Return e)
  | _, _ =>
      if bool_decide (timeline = []) || bool_decide (is_Some err)
      then mret Break
      else
        ids ← merge user timeline (ids st);
        mret (Next (mkLocals v false ids))
  end.

(** [for i := 0; i < 10; i++ { ... }; return nil], with [n] passes left. *)
Fixpoint loop (n : nat) (user : string) (st : locals) : M (option error) :=
  match n with
  | O => mret None
  | S n =>
      c ← iteration user st;
      match c with
      | Next st => loop n user st
      | Break => mret None
      | Return err => mret (Some err)
      end
  end.

Definition init (user : string) : locals :=
  mkLocals (base_values user) true ∅.

(** From the consumer overrides to [anaconda.NewTwitterApi]. *)
Definition connect (consumerKey consumerSecret token tokenSecret : string)
    : M unit :=
  (if negb (len consumerKey =? 0)%Z
   then anaconda_SetConsumerKey consumerKey else mret tt);;
  (if negb (len consumerSecret =? 0)%Z
   then anaconda_SetConsumerSecret consumerSecret else mret tt);;
  anaconda_NewTwitterApi token tokenSecret.

Definition fetchMore (user consumerKey consumerSecret token tokenSecret
    : string) : M (option error) :=
  if (len token =? 0)%Z || (len tokenSecret =? 0)%Z
  then mret (Some "both -t and -s are required. If you don't have one, visit https://apps.twitter.com/app/new to create a new token.")
  else
    connect consumerKey consumerSecret token tokenSecret;;
    defer api_Close (loop 10 user (init user)).

(** ** Aggregator *)

Record stats := mkStats {
  hours : list Z;
  weekdays : list Z;
  placesMap : gmap string Z;
  places : list string;
  placesLen : Z
}.

(** [a[i]++] on an array of [int].  An index outside the array would
    panic; [Hour] and [Weekday] never yield one. *)
Definition incr (i : Z) (a : list Z) : list Z :=
  alter (fun n => Int64.add n 1) (Z.to_nat i) a.

(** The body of [for _, t := range c.Users[*user]]. *)
Definition tally (s : stats) (t : Tweet) : stats :=
  let hours := incr (Hour (CreatedAt t)) (hours s) in
  let weekdays := incr (Weekday (CreatedAt t)) (weekdays s) in
  if (len (Place t) =? 0)%Z
  then mkStats hours weekdays (placesMap s) (places s) (placesLen s)
  else
    let '(placesMap, places, placesLen) :=
      match placesMap s !! Place t with
      | Some _ => (placesMap s, places s, placesLen s)
      | None =>
          let l := RuneCountInString (Place t) in
          (<[Place t := 0]> (placesMap s),
           places s ++ [Place t],
           if (l >? placesLen s)%Z then l else placesLen s)
      end in
    let n := default 0 (placesMap !! Place t) in
    mkStats hours weekdays (<[Place t := Int64.add n 1]> placesMap)
            places placesLen.

Definition aggregate (h : list Tweet) : stats :=
  foldl tally (mkStats (replicate 24 0) (replicate 7 0) ∅ [] 0) h.

(** [sort.Strings]: ascending byte-wise order. *)
Fixpoint insert_sorted (s : string) (l : list string) : list string :=
  match l with
  | [] => [s]
  | x :: l' => if String.leb s x then s :: l else x :: insert_sorted s l'
  end.

Definition sort_Strings (l : list string) : list string :=
  foldr insert_sorted [] l.

(** ** Report *)

Definition print_each {A} (f : Z -> A -> M unit) (l : list A) : M unit :=
  foldr (fun ix k => f (Z.of_nat ix.1) ix.2;; k) (mret tt) (imap pair l).

Definition report (total : Z) (s : stats) : M unit :=
  fmt_Printf "Processed %d tweets\n" [AInt total];;
  fmt_Printf "Favorite hour in UTC:\n" [];;
  print_each (fun i n => fmt_Printf "  %2d: %3d\n" [AInt i; AInt n])
             (hours s);;
  fmt_Printf "Favorite weekday in UTC:\n" [];;
  print_each (fun i n =>
                fmt_Printf "  %9s: %3d\n" [AStr (Weekday_String i); AInt n])
             (weekdays s);;
  fmt_Printf "Favorite places:\n" [];;
  print_each (fun _ p =>
                fmt_Printf "  %*s: %d\n"
                  [AInt (placesLen s); AStr p;
                   AInt (default 0 (placesMap s !! p))])
             (sort_Strings (places s)).

(** ** Entry points *)

(** The values of the flags and [flag.NArg()] once [flag.Parse()] has
    returned.  [flag.Parse] is the library's: on a command line that it
    rejects, and on [-h], it prints the usage on stderr and ends the
    process itself, before anything below runs.  [mainImpl], [main] and
    [run] describe the process from the return of [flag.Parse] on. *)
Record flags := mkFlags {
  user : string;
  verbose : bool;
  consumerKey : string;
  consumerSecret : string;
  token : string;
  tokenSecret : string;
  (** [flag.NArg()] *)
  NArg : Z
}.

(** What [mainImpl] does once the save is deferred. *)
Definition fetch_and_report (f : flags) : M (option error) :=
  r ← (if negb (len (token f) =? 0)%Z
       then fetchMore (user f) (consumerKey f) (consumerSecret f)
                      (token f) (tokenSecret f)
       else mret None);
  match r with
  | Some err => mret (Some err)
  | None =>
      c ← gets heap;
      let h := history c (user f) in
      report (Z.of_nat (length h)) (aggregate h);;
      mret None
  end.

Definition mainImpl (f : flags) : M (option error) :=
  (if negb (verbose f) then log_Discard else mret tt);;
  if negb (NArg f =? 0)%Z then mret (Some "unexpected argument")
  else if (len (user f) =? 0)%Z then mret (Some "-u is required")
  else
    load;;
    defer save (fetch_and_report f).

Definition main (f : flags) : M unit :=
  r ← mainImpl f;
  match r with
  | Some err => fmt_Fprintf_Stderr "restroom: %s.\n" [AStr err];; os_Exit 1
  | None => mret tt
  end.

(** The exit status of the process and the world it leaves behind, for a
    command line from which [flag.Parse] returned [f]. *)
Definition run (f : flags) (w : world) : Z * world :=
  match main f w with
  | (Val _, w') => (0, w')
  | (Exit code, w') => (code, w')
  end.

(** ** Vocabulary for the statements *)

(** The locals and the world in which pass number [k] (from 0) of the
    fetcher's loop starts, when the loop gets that far. *)
Fixpoint pass (k : nat) (user : string) (st : locals) (w : world)
    : option (locals * world) :=
  match k with
  | O => Some (st, w)
  | S k =>
      match iteration user st w with
      | (Val (Next st'), w') => pass k user st' w'
      | _ => None
      end
  end.

(** The request that a pass starting in [w] with [v] sends. *)
Definition cursor (user : string) (v : Values) (w : world) : Values :=
  match last (history (heap w) user) with
  | Some t => <["max_id" := [FormatInt (Int64.sub (Id t) 1)]]> v
  | None => v
  end.

(** The answer it gets. *)
Definition answer (user : string) (v : Values) (w : world) : response :=
  twitter w (length (requests w)) (cursor user v w).

(** The world once the answer is in and its size is logged. *)
Definition asked (user : string) (v : Values) (w : world) : world :=
  let w1 :=
    match last (history (heap w) user) with
    | Some t =>
        logged "using max_id %s" [AStr (FormatInt (Int64.sub (Id t) 1))] w
    | None => w
    end in
  let w2 := logged "Fetching" [] w1 in
  let w3 := set_requests (requests w2 ++ [cursor user v w]) w2 in
  logged "Retrieved %d tweets"
         [AInt (Z.of_nat (length (answer user v w).1))] w3.

(** The world in which [mainImpl] reaches the fetch step, for flags that
    pass its checks. *)
Definition loaded (f : flags) (w : world) : world :=
  (((if negb (verbose f) then log_Discard else mret tt);; load) w).2.

(** No two posts of a history share an id. *)
Definition distinct_ids (h : list Tweet) : Prop := NoDup (Id <$> h).

End Program.

(** A computation keeps a relation between the world it starts in and the
    world it ends in, however it ends. *)
Definition keeps {A} (R : relation world) (m : M A) : Prop :=
  forall w, R w (m w).2.

(** The part of the world a projection reads is left as it was. *)
Definition same {B} (π : world -> B) : relation world :=
  fun w w' => π w' = π w.

(** A projection that reads none of what the fetcher writes. *)
Definition fetch_blind {B} (π : world -> B) : Prop :=
  (forall x w, π (set_stderr x w) = π w) /\
  (forall x w, π (set_heap x w) = π w) /\
  (forall x w, π (set_requests x w) = π w) /\
  (forall x w, π (set_consumer x w) = π w) /\
  (forall x w, π (set_sessions x w) = π w).

(** What a run of the fetcher for [user] may do to the cache: the
    histories of the other users stay as they are and the history of
    [user] is extended at its end. *)
Definition extends (user : string) : relation world :=
  fun w w' =>
    (forall u, u ≠ user -> Users (heap w') !! u = Users (heap w) !! u) /\
    history (heap w) user `prefix_of` history (heap w') user.

(** Requests are only ever added, at most [n] of them. *)
Definition asks (n : nat) : relation world :=
  fun w w' =>
    exists l, requests w' = requests w ++ l /\ (length l <= n)%nat.

(** An answer that ends the loop quietly in pass number [k] (from 0): an
    empty page without an error, or an error in a pass after the first. *)
Definition stops (k : nat) (r : response) : Prop :=
  (r.1 = [] /\ r.2 = None) \/ ((1 <= k)%nat /\ is_Some r.2).

(** A computation that returns, having at most printed on stdout. *)
Definition prints {A} (m : M A) : Prop :=
  forall w, exists a out, m w = (Val a, set_stdout (stdout w ++ out) w).

(** What the seen-set guarantees while the fetcher runs for [user] on a
    history that started as [old]: the posts added so far have pairwise
    distinct ids, all of them seen, none of them an id of [old]. *)
Definition fresh_so_far (user : string) (old : list Tweet) (ids : gset Z)
    (w : world) : Prop :=
  exists added,
    history (heap w) user = old ++ added /\
    NoDup (Id <$> added) /\
    forall x, x ∈ Id <$> added -> x ∈ ids /\ x ∉ Id <$> old.

(** What [report] prints, in order. *)
Definition report_lines (total : Z) (s : stats) : list printed :=
  [Printf "Processed %d tweets\n" [AInt total];
   Printf "Favorite hour in UTC:\n" []] ++
  imap (fun i n => Printf "  %2d: %3d\n" [AInt (Z.of_nat i); AInt n])
       (hours s) ++
  [Printf "Favorite weekday in UTC:\n" []] ++
  imap (fun i n =>
          Printf "  %9s: %3d\n"
                 [AStr (Weekday_String (Z.of_nat i)); AInt n])
       (weekdays s) ++
  [Printf "Favorite places:\n" []] ++
  ((fun p =>
      Printf "  %*s: %d\n"
             [AInt (placesLen s); AStr p;
              AInt (default 0 (placesMap s !! p))])
   <$> sort_Strings (places s)).

(** A computation that, when it ends the process, does so with status 1. *)
Definition exits_one {A} (m : M A) : Prop :=
  forall w code w', m w = (Exit code, w') -> code = 1.

(** Once log output is discarded it stays discarded, and stderr stays as
    it is. *)
Definition quiet : relation world :=
  fun w w' => logging w = false -> logging w' = false /\ stderr w' = stderr w.

(** Ascending byte-wise order on strings. *)
Definition ascending (a b : string) : Prop := String.leb a b = true.

(** How many posts of a history fall in hour [i], on weekday [d], at
    place [p]. *)
Definition in_hour (i : Z) (h : list Tweet) : Z :=
  Z.of_nat (length (filter (fun t => Hour (CreatedAt t) = i) h)).
Definition on_weekday (d : Z) (h : list Tweet) : Z :=
  Z.of_nat (length (filter (fun t => Weekday (CreatedAt t) = d) h)).
Definition at_place (p : string) (h : list Tweet) : Z :=
  Z.of_nat (length (filter (fun t => Place t = p) h)).

(** The cached post [t] records the served tweet [tw]: its id, its place
    name and its parsed timestamp. *)
Definition record_of `{Libs} (tw : anaconda.Tweet) (t : Tweet) : Prop :=
  CreatedAtTime tw = inl (CreatedAt t) /\
  Id t = anaconda.Id tw /\
  Place t = anaconda.Name (anaconda.Place_ tw).

(** The history of [user] is [old] followed by posts that satisfy [P]. *)
Definition built_from (user : string) (old : list Tweet)
    (P : Tweet -> Prop) (w : world) : Prop :=
  exists added, history (heap w) user = old ++ added /\ Forall P added.

(** Every id in the seen-set is the id of a cached post of [user]. *)
Definition seen_cached (user : string) (ids : gset Z) (w : world) : Prop :=
  forall x, x ∈ ids -> x ∈ Id <$> history (heap w) user.

(** A computation that returns after printing exactly [out] on stdout. *)
Definition emits (m : M unit) (out : list printed) : Prop :=
  forall w, m w = (Val tt, set_stdout (stdout w ++ out) w).

(** The line that [main] prints for an error. *)
Definition failure_line (err : error) : printed :=
  Printf "restroom: %s.\n" [AStr err].

(** A projection that reads none of what the fetcher's loop writes. *)
Definition untouched_by_loop {B} (π : world -> B) : Prop :=
  (forall x w, π (set_stderr x w) = π w) /\
  (forall x w, π (set_heap x w) = π w) /\
  (forall x w, π (set_requests x w) = π w).

(** ** A concrete instance of the libraries and some runs

    Used to evaluate the program on examples. *)
Module Demo.

(** Seconds from 1970 to the first instant of year 0 and of year 10000. *)
Definition year0 : Z := -62167219200.
Definition year10000 : Z := 253402300800.

Definition parse (s : string) : Time + error :=
  if String.eqb s "Mon Jan 05 03:00:00 +0000 1970" then inl (at_utc 356400)
  else if String.eqb s "Mon Jan 05 03:30:00 +0000 1970" then inl (at_utc 358200)
  else if String.eqb s "Fri Jan 02 14:00:00 +0000 1970" then inl (at_utc 136800)
  else inr ("parsing time " +:+ s).

Definition encode_tweet (t : Tweet) : string :=
  "{CreatedAt:" +:+ FormatInt (unix (CreatedAt t)) +:+
  (if (zone (CreatedAt t) =? 0)%Z then ""
   else "@" +:+ FormatInt (zone (CreatedAt t))) +:+
  ",Id:" +:+ FormatInt (Id t) +:+ ",Place:" +:+ Place t +:+ "}".

Definition encode (c : cache) : string + error :=
  if forallb (fun uh : string * list Tweet =>
                forallb (fun t => (year0 <=? wall (CreatedAt t))%Z
                                  && (wall (CreatedAt t) <? year10000)%Z)
                        uh.2)
             (map_to_list (Users c))
  then inl ("{Users:{" +:+
            String.concat ","
              ((fun uh : string * list Tweet =>
                  uh.1 +:+ ":[" +:+
                  String.concat "," (encode_tweet <$> uh.2) +:+ "]")
               <$> map_to_list (Users c)) +:+ "}}")
  else inr "json: error calling MarshalJSON for type time.Time: year outside of range [0,9999]".

Definition alice : list Tweet := [mkTweet 358200 5 "NYC"; mkTweet 356400 10 ""].

Definition decode (data : string) (users : gmap string (list Tweet))
    : decoded :=
  if String.eqb data "{}" then Stored (Some users) None
  else if String.eqb data "{Users:null}" then Stored None None
  else if String.eqb data "{Users:{alice:[5,10]}}"
       then Stored (Some (<["alice" := alice]> users)) None
  else SyntaxError "invalid character".

(** Bytes that do not continue a multi-byte sequence. *)
Definition runes (s : string) : Z :=
  Z.of_nat (length (filter (fun a : ascii =>
                               ¬ (128 <= Z.of_N (N_of_ascii a) < 192))
                           (list_ascii_of_string s))).

#[local] Instance libs : Libs := {
  ParseRubyDate := parse;
  Marshal := encode;
  Decode := decode;
  RuneCountInString := runes
}.

Definition tweet (created : string) (id : Z) (place : string)
    : anaconda.Tweet :=
  anaconda.mkTweet created id (anaconda.mkPlace place).

Definition monday3 : string := "Mon Jan 05 03:00:00 +0000 1970".
Definition friday14 : string := "Fri Jan 02 14:00:00 +0000 1970".

(** A service that serves the given pages in order, then empty pages. *)
Definition serve (pages : list response) : nat -> Values -> response :=
  fun n _ => nth n pages ([], None).

Definition boot (disk : gmap string string) (unwritable : option error)
    (api : nat -> Values -> response) : world :=
  World disk unwritable [] api [] ("", "") [] true [] [] (mkCache ∅).

Definition flags_for (user token tokenSecret : string) : flags :=
  mkFlags user true "" "" token tokenSecret 0.

(** A first page whose second post carries a timestamp that does not
    parse. *)
Definition bad_page : response :=
  ([tweet monday3 20 "NYC"; tweet "yesterday" 19 ""], None).

(** The cache file holds posts 5 and 10 of alice, in that order, so the
    cursor is 9; the service answers with posts 9 and 5. *)
Definition overlap : world :=
  boot {["restroom.json" := "{Users:{alice:[5,10]}}"]} None
       (serve [([tweet friday14 9 ""; tweet monday3 5 "NYC"], None)]).

(** A service that is down. *)
Definition refuse : nat -> Values -> response :=
  fun _ _ => ([], Some "Get statuses/user_timeline: 503").

(** Two pages that share post 8. *)
Definition page1 : response :=
  ([tweet friday14 9 ""; tweet monday3 8 "NYC"], None).
Definition page2 : response :=
  ([tweet monday3 8 "NYC"; tweet monday3 7 "Oslo"], None).

(** The second request times out. *)
Definition flaky : world :=
  boot ∅ None (serve [page1; ([], Some "timeout")]).

(** The cache file holds posts of alice; the service pages overlap. *)
Definition paging : world :=
  boot {["restroom.json" := "{Users:{alice:[5,10]}}"]} None
       (serve [page1; page2]).

(** A service that refuses only a first request that carries no cursor. *)
Definition picky : nat -> Values -> response :=
  fun n v =>
    match n, v !! "max_id" with
    | O, None => ([], Some "Get statuses/user_timeline: 503")
    | _, _ => ([tweet monday3 1 ""], None)
    end.

(** A service that always has one more, older post. *)
Definition endless : nat -> Values -> response :=
  fun n _ => ([tweet monday3 (100 - Z.of_nat n) ""], None).

(** A cache with posts of alice, its serialization, and a decoder that
    reads that serialization back. *)
Definition alice_cache : cache := mkCache {["alice" := alice]}.

Definition alice_json : string :=
  Eval vm_compute in
    match encode alice_cache with
    | inl b => b
    | inr _ => ""
    end.

Definition decode_back (data : string) (users : gmap string (list Tweet))
    : decoded :=
  if String.eqb data alice_json
  then Stored (Some (<["alice" := alice]> users)) None
  else decode data users.

Definition libs_back : Libs := {|
  ParseRubyDate := parse;
  Marshal := encode;
  Decode := decode_back;
  RuneCountInString := runes
|}.

(** Cache files in JSON text, and what [encoding/json] makes of them. *)

(** A JSON string literal. *)
Definition quoted (s : string) : string :=
  String (ascii_of_nat 34) s +:+ String (ascii_of_nat 34) EmptyString.

(** The zero [time.Time], 0001-01-01T00:00:00 UTC. *)
Definition zero_time : Time := at_utc (-62135596800).

(** A file with one post of bob whose place is the number 5:
    {Users:{bob:[{Id:7,Place:5}]}} with every name quoted.  It is
    well-formed JSON; the decoder stores the post with the fields that
    fit, leaves the place and the time at their zero values, and returns
    the type error of the place. *)
Definition ill_typed : string :=
  "{" +:+ quoted "Users" +:+ ":{" +:+ quoted "bob" +:+ ":[{" +:+
  quoted "Id" +:+ ":7," +:+ quoted "Place" +:+ ":5}]}}".

(** A post as it stands in a cache file. *)
Definition post (created : string) (id : string) (place : string) : string :=
  "{" +:+ quoted "CreatedAt" +:+ ":" +:+ quoted created +:+ "," +:+
  quoted "Id" +:+ ":" +:+ id +:+ "," +:+
  quoted "Place" +:+ ":" +:+ quoted place +:+ "}".

(** A file with three posts of bob.  The first was made at 03:00 UTC on
    Monday 5 January 1970 and is written with the clock of a location
    five hours east of UTC. *)
Definition zoned : string :=
  "{" +:+ quoted "Users" +:+ ":{" +:+ quoted "bob" +:+ ":[" +:+
  post "1970-01-05T08:00:00+05:00" "1" "NYC" +:+ "," +:+
  post "1970-01-05T03:30:00Z" "2" "" +:+ "," +:+
  post "1970-01-02T14:00:00Z" "3" "NYC" +:+ "]}}".

Definition zoned_posts : list Tweet :=
  [mkTweet (mkTime 356400 18000) 1 "NYC"; mkTweet 358200 2 "";
   mkTweet 136800 3 "NYC"].

Definition decode_json (data : string) (users : gmap string (list Tweet))
    : decoded :=
  if String.eqb data ill_typed
  then Stored (Some (<["bob" := [mkTweet zero_time 7 ""]]> users))
              (Some "json: cannot unmarshal number into Go struct field Tweet.Place of type string")
  else if String.eqb data zoned
  then Stored (Some (<["bob" := zoned_posts]> users)) None
  else decode data users.

Definition libs_json : Libs := {|
  ParseRubyDate := parse;
  Marshal := encode;
  Decode := decode_json;
  RuneCountInString := runes
|}.

End Demo.

(** * Properties *)

Section Properties.
Context `{Libs}.

(** ** Running the monad *)

Lemma run_bind {A B} (m : M A) (k : A -> M B) (w : world) :
  (m ≫= k) w =
  match m w with
  | (Val a, w') => k a w'
  | (Exit code, w') => (Exit code, w')
  end.
Proof. reflexivity. Qed.

Lemma keeps_ret {A} (R : relation world) `{!Reflexive R} (a : A) :
  keeps R (mret a).
Proof. intros w. simpl. reflexivity. Qed.

Lemma keeps_bind {A B} (R : relation world) `{!Transitive R}
    (m : M A) (k : A -> M B) :
  keeps R m -> (forall a, keeps R (k a)) -> keeps R (m ≫= k).
Proof.
  intros Hm Hk w. rewrite run_bind.
  specialize (Hm w). destruct (m w) as [[a|code] w1]; simpl in *.
  - transitivity w1; [exact Hm | apply Hk].
  - exact Hm.
Qed.

Lemma keeps_gets {A} (R : relation world) `{!Reflexive R} (f : world -> A) :
  keeps R (gets f).
Proof. intros w. simpl. reflexivity. Qed.

Lemma keeps_modify (R : relation world) (f : world -> world) :
  (forall w, R w (f w)) -> keeps R (modify f).
Proof. intros Hf w. apply Hf. Qed.

Lemma keeps_exit {A} (R : relation world) `{!Reflexive R} code :
  keeps R (os_Exit (A := A) code).
Proof. intros w. simpl. reflexivity. Qed.

Lemma keeps_defer {A} (R : relation world) `{!PreOrder R}
    (d : M unit) (body : M A) :
  keeps R d -> keeps R body -> keeps R (defer d body).
Proof.
  intros Hd Hb. unfold defer. apply keeps_bind; [apply _ | exact Hb |].
  intros a. apply keeps_bind; [apply _ | exact Hd |].
  intros _. apply keeps_ret. apply _.
Qed.

#[local] Instance same_preorder {B} (π : world -> B) : PreOrder (same π).
Proof.
  split.
  - intros w. reflexivity.
  - intros w1 w2 w3 E1 E2. unfold same in *. congruence.
Qed.

(** ** Time and integers *)

Lemma Hour_range t : 0 <= Hour t < 24.
Proof.
  unfold Hour. pose proof (Z.mod_pos_bound (wall t) 86400 ltac:(lia)) as Hm.
  split; [apply Z.div_pos; lia | apply Z.div_lt_upper_bound; lia].
Qed.

Lemma Weekday_range t : 0 <= Weekday t < 7.
Proof. unfold Weekday. apply Z.mod_pos_bound. lia. Qed.

Example Hour_before_1970 : Hour (-1) = 23 /\ Weekday (-1) = Wednesday.
Proof. split; reflexivity. Qed.

Example FormatInt_examples :
  FormatInt 0 = "0" /\ FormatInt (-1) = "-1" /\ FormatInt 1234 = "1234".
Proof. repeat split; reflexivity. Qed.

Example Int64_sub_wraps :
  FormatInt (Int64.sub Int64.min 1) = "9223372036854775807".
Proof. reflexivity. Qed.

(** ** What the fetcher leaves alone *)

Section Blind.
Context {B : Type} (π : world -> B) (Hπ : fetch_blind π).

Lemma log_Printf_blind f a : keeps (same π) (log_Printf f a).
Proof.
  destruct Hπ as (E & _). apply keeps_modify. intros w. unfold same, logged.
  destruct (logging w); [apply E | reflexivity].
Qed.

Lemma log_Fatalf_blind {A} f a : keeps (same π) (log_Fatalf (A := A) f a).
Proof.
  unfold log_Fatalf. apply keeps_bind; [apply _ | apply log_Printf_blind |].
  intros _. apply keeps_exit. apply _.
Qed.

Lemma append_tweet_blind user t : keeps (same π) (append_tweet user t).
Proof.
  destruct Hπ as (_ & E & _). apply keeps_modify. intros w. apply E.
Qed.

Lemma api_GetUserTimeline_blind v : keeps (same π) (api_GetUserTimeline v).
Proof. destruct Hπ as (_ & _ & E & _). intros w. apply E. Qed.

Lemma merge_blind user timeline ids :
  keeps (same π) (merge user timeline ids).
Proof.
  revert ids. induction timeline as [|tweet timeline IH]; intros ids; simpl.
  - apply keeps_ret. apply _.
  - case_decide; [apply IH |].
    destruct (CreatedAtTime tweet) as [t|err].
    + apply keeps_bind; [apply _ | apply append_tweet_blind |].
      intros _. apply IH.
    + apply log_Fatalf_blind.
Qed.

Lemma with_cursor_blind user v : keeps (same π) (with_cursor user v).
Proof.
  unfold with_cursor. apply keeps_bind; [apply _ | apply keeps_gets, _ |].
  intros c. destruct (last (history c user)) as [t|].
  - apply keeps_bind; [apply _ | apply log_Printf_blind |].
    intros _. apply keeps_ret, _.
  - apply keeps_ret, _.
Qed.

Lemma iteration_blind user st : keeps (same π) (iteration user st).
Proof.
  unfold iteration.
  apply keeps_bind; [apply _ | apply with_cursor_blind |]. intros v.
  apply keeps_bind; [apply _ | apply log_Printf_blind |]. intros _.
  apply keeps_bind; [apply _ | apply api_GetUserTimeline_blind |].
  intros [timeline err].
  apply keeps_bind; [apply _ | apply log_Printf_blind |]. intros _.
  assert (keeps (same π)
            (if bool_decide (timeline = []) || bool_decide (is_Some err)
             then mret Break
             else ids ← merge user timeline (ids st);
                  mret (Next (mkLocals v false ids)))) as Hrest.
  { destruct (_ || _); [apply keeps_ret, _ |].
    apply keeps_bind; [apply _ | apply merge_blind |].
    intros i. apply keeps_ret, _. }
  destruct err as [e|]; [destruct (first st) |]; try exact Hrest.
  apply keeps_ret, _.
Qed.

Lemma loop_blind n user st : keeps (same π) (loop n user st).
Proof.
  revert st. induction n as [|n IH]; intros st; simpl.
  - apply keeps_ret, _.
  - apply keeps_bind; [apply _ | apply iteration_blind |].
    intros [st'| |err]; [apply IH | apply keeps_ret, _ | apply keeps_ret, _].
Qed.

Lemma connect_blind ck cs tok ts : keeps (same π) (connect ck cs tok ts).
Proof.
  destruct Hπ as (_ & _ & _ & Ec & Es). unfold connect.
  apply keeps_bind; [apply _ | |]; [| intros _; apply keeps_bind;
                                       [apply _ | |intros _]].
  - destruct (negb _); [| apply keeps_ret, _].
    apply keeps_modify. intros w. apply Ec.
  - destruct (negb _); [| apply keeps_ret, _].
    apply keeps_modify. intros w. apply Ec.
  - apply keeps_modify. intros w. apply Es.
Qed.

Lemma fetchMore_blind user ck cs tok ts :
  keeps (same π) (fetchMore user ck cs tok ts).
Proof.
  unfold fetchMore. destruct (_ || _); [apply keeps_ret, _ |].
  apply keeps_bind; [apply _ | apply connect_blind |]. intros _.
  apply keeps_defer; [apply _ | | apply loop_blind].
  destruct Hπ as (_ & _ & _ & _ & Es).
  apply keeps_modify. intros w. apply Es.
Qed.

End Blind.

Lemma twitter_blind : fetch_blind twitter.
Proof. repeat split. Qed.
Lemma written_blind : fetch_blind written.
Proof. repeat split. Qed.
Lemma stdout_blind : fetch_blind stdout.
Proof. repeat split. Qed.
Lemma write_error_blind : fetch_blind write_error.
Proof. repeat split. Qed.

(** ** The cache under the fetcher *)

#[local] Instance extends_preorder user : PreOrder (extends user).
Proof.
  split.
  - intros w. split; [reflexivity | done].
  - intros w1 w2 w3 [E1 P1] [E2 P2]. split.
    + intros u Hu. rewrite E2, E1 by done. reflexivity.
    + by transitivity (history (heap w2) user).
Qed.

Lemma extends_same_heap user w w' : heap w' = heap w -> extends user w w'.
Proof. intros E. unfold extends. rewrite E. done. Qed.

Lemma history_append user t c u :
  history (mkCache (<[user := history c user ++ [t]]> (Users c))) u =
  if decide (u = user) then history c user ++ [t] else history c u.
Proof.
  unfold history at 1. simpl. case_decide as E.
  - subst u. by rewrite lookup_insert_eq.
  - by rewrite lookup_insert_ne.
Qed.

Lemma log_Printf_extends user f a : keeps (extends user) (log_Printf f a).
Proof.
  apply keeps_modify. intros w. apply extends_same_heap.
  unfold logged. by destruct (logging w).
Qed.

Lemma log_Fatalf_extends {A} user f a :
  keeps (extends user) (log_Fatalf (A := A) f a).
Proof.
  unfold log_Fatalf. apply keeps_bind; [apply _ | apply log_Printf_extends |].
  intros _. apply keeps_exit, _.
Qed.

Lemma append_tweet_extends user t : keeps (extends user) (append_tweet user t).
Proof.
  apply keeps_modify. intros w. split; simpl.
  - intros u Hu. by rewrite lookup_insert_ne.
  - rewrite history_append, decide_True by done. by apply prefix_app_r.
Qed.

Lemma merge_extends user timeline ids :
  keeps (extends user) (merge user timeline ids).
Proof.
  revert ids. induction timeline as [|tweet timeline IH]; intros ids; simpl.
  - apply keeps_ret, _.
  - case_decide; [apply IH |].
    destruct (CreatedAtTime tweet) as [t|err].
    + apply keeps_bind; [apply _ | apply append_tweet_extends |].
      intros _. apply IH.
    + apply log_Fatalf_extends.
Qed.

Lemma with_cursor_extends user v : keeps (extends user) (with_cursor user v).
Proof.
  unfold with_cursor. apply keeps_bind; [apply _ | apply keeps_gets, _ |].
  intros c. destruct (last (history c user)) as [t|].
  - apply keeps_bind; [apply _ | apply log_Printf_extends |].
    intros _. apply keeps_ret, _.
  - apply keeps_ret, _.
Qed.

Lemma iteration_extends user st : keeps (extends user) (iteration user st).
Proof.
  unfold iteration.
  apply keeps_bind; [apply _ | apply with_cursor_extends |]. intros v.
  apply keeps_bind; [apply _ | apply log_Printf_extends |]. intros _.
  apply keeps_bind; [apply _ | |].
  { intros w. by apply extends_same_heap. }
  intros [timeline err].
  apply keeps_bind; [apply _ | apply log_Printf_extends |]. intros _.
  assert (keeps (extends user)
            (if bool_decide (timeline = []) || bool_decide (is_Some err)
             then mret Break
             else ids ← merge user timeline (ids st);
                  mret (Next (mkLocals v false ids)))) as Hrest.
  { destruct (_ || _); [apply keeps_ret, _ |].
    apply keeps_bind; [apply _ | apply merge_extends |].
    intros i. apply keeps_ret, _. }
  destruct err as [e|]; [destruct (first st) |]; try exact Hrest.
  apply keeps_ret, _.
Qed.

Lemma loop_extends n user st : keeps (extends user) (loop n user st).
Proof.
  revert st. induction n as [|n IH]; intros st; simpl.
  - apply keeps_ret, _.
  - apply keeps_bind; [apply _ | apply iteration_extends |].
    intros [st'| |err]; [apply IH | apply keeps_ret, _ | apply keeps_ret, _].
Qed.

Lemma connect_spec ck cs tok ts w :
  exists cons sess,
    connect ck cs tok ts w = (Val tt, set_sessions sess (set_consumer cons w)).
Proof.
  unfold connect. rewrite !run_bind.
  destruct (negb (len ck =? 0)%Z), (negb (len cs =? 0)%Z); simpl;
    eexists _, _; reflexivity.
Qed.

Lemma fetchMore_eq user ck cs tok ts w :
  (len tok =? 0)%Z || (len ts =? 0)%Z = false ->
  fetchMore user ck cs tok ts w =
  match loop 10 user (init user) (connect ck cs tok ts w).2 with
  | (Val r, w') => (Val r, set_sessions (tail (sessions w')) w')
  | (Exit code, w') => (Exit code, w')
  end.
Proof.
  intros E. unfold fetchMore. rewrite E, run_bind.
  destruct (connect_spec ck cs tok ts w) as (cons & sess & ->).
  unfold defer. rewrite run_bind. cbn [snd].
  by destruct (loop _ _ _ _) as [[r|code] w2].
Qed.

Lemma fetchMore_extends user ck cs tok ts :
  keeps (extends user) (fetchMore user ck cs tok ts).
Proof.
  unfold fetchMore. destruct (_ || _); [apply keeps_ret, _ |].
  apply keeps_bind; [apply _ | |].
  { intros w. apply extends_same_heap.
    destruct (connect_spec ck cs tok ts w) as (cons & sess & ->). done. }
  intros _. apply keeps_defer; [apply _ | | apply loop_extends].
  apply keeps_modify. intros w. by apply extends_same_heap.
Qed.

(** ** Requests *)

Lemma asks_same n w w' : requests w' = requests w -> asks n w w'.
Proof. intros E. exists []. rewrite app_nil_r. split; [done | simpl; lia]. Qed.

Lemma asks_trans a b w1 w2 w3 :
  asks a w1 w2 -> asks b w2 w3 -> asks (a + b) w1 w3.
Proof.
  intros (l1 & E1 & L1) (l2 & E2 & L2). exists (l1 ++ l2). split.
  - by rewrite E2, E1, app_assoc.
  - rewrite length_app. lia.
Qed.

Lemma logged_requests f a w : requests (logged f a w) = requests w.
Proof. unfold logged. by destruct (logging w). Qed.

Lemma logged_heap f a w : heap (logged f a w) = heap w.
Proof. unfold logged. by destruct (logging w). Qed.

Lemma logged_twitter f a w : twitter (logged f a w) = twitter w.
Proof. unfold logged. by destruct (logging w). Qed.

Lemma asked_requests user v w :
  requests (asked user v w) = requests w ++ [cursor user v w].
Proof.
  unfold asked. rewrite logged_requests. simpl. rewrite logged_requests.
  destruct (last _); [by rewrite logged_requests | done].
Qed.

Lemma asked_heap user v w : heap (asked user v w) = heap w.
Proof.
  unfold asked. rewrite logged_heap. simpl. rewrite logged_heap.
  destruct (last _); [by rewrite logged_heap | done].
Qed.

(** One pass of the loop, step by step. *)
Lemma iteration_eq user st w :
  iteration user st w =
  let v' := cursor user (v st) w in
  let '(timeline, err) := answer user (v st) w in
  let w' := asked user (v st) w in
  match err, first st with
  | Some e, true => (Val (Return e), w')
  | _, _ =>
      if bool_decide (timeline = []) || bool_decide (is_Some err)
      then (Val Break, w')
      else
        match merge user timeline (ids st) w' with
        | (Val ids, w'') => (Val (Next (mkLocals v' false ids)), w'')
        | (Exit code, w'') => (Exit code, w'')
        end
  end.
Proof.
  unfold iteration, with_cursor, asked, answer, cursor, log_Printf, modify,
    api_GetUserTimeline, gets, logged, mbind, M_bind, mret, M_ret.
  destruct w as [fi we wr tw rq co se lg er ou hp]. cbn.
  destruct (last (history hp user)) as [t|]; destruct lg; cbn;
    destruct (tw _ _) as [timeline err];
    destruct err as [e|]; destruct (first st); cbn;
    destruct (bool_decide (timeline = [])); reflexivity.
Qed.

Lemma merge_requests user timeline ids w :
  requests (merge user timeline ids w).2 = requests w.
Proof.
  revert ids w. induction timeline as [|tweet timeline IH]; intros ids w;
    simpl; [done |].
  case_decide; [apply IH |].
  destruct (CreatedAtTime tweet) as [t|err].
  - rewrite run_bind. simpl. by rewrite IH.
  - unfold log_Fatalf. rewrite run_bind. simpl. apply logged_requests.
Qed.

(** One pass issues exactly one request. *)
Lemma iteration_requests user st w :
  requests (iteration user st w).2 = requests w ++ [cursor user (v st) w].
Proof.
  rewrite iteration_eq. simpl.
  pose proof (asked_requests user (v st) w) as E.
  destruct (answer user (v st) w) as [timeline err].
  assert (requests
            (if bool_decide (timeline = []) || bool_decide (is_Some err)
             then (Val Break, asked user (v st) w)
             else
               match merge user timeline (ids st) (asked user (v st) w) with
               | (Val ids, w'') =>
                   (Val (Next (mkLocals (cursor user (v st) w) false ids)),
                    w'')
               | (Exit code, w'') => (Exit code, w'')
               end).2 = requests w ++ [cursor user (v st) w]) as Hrest.
  { destruct (_ || _); [exact E |].
    pose proof (merge_requests user timeline (ids st)
                  (asked user (v st) w)) as Em.
    destruct (merge _ _ _ _) as [[i|code] w4]; simpl in *; congruence. }
  destruct err as [e|]; [destruct (first st) |]; try exact Hrest.
  exact E.
Qed.

Lemma loop_asks n user st w : asks n w (loop n user st w).2.
Proof.
  revert st w. induction n as [|n IH]; intros st w; simpl.
  - by apply asks_same.
  - rewrite run_bind.
    pose proof (iteration_requests user st w) as E1.
    destruct (iteration user st w) as [[[st'| |err]|code] w1]; simpl in *.
    + apply (asks_trans 1 n _ w1); [| apply IH].
      eexists. split; [exact E1 | simpl; lia].
    + eexists. split; [exact E1 | simpl; lia].
    + eexists. split; [exact E1 | simpl; lia].
    + eexists. split; [exact E1 | simpl; lia].
Qed.

Lemma fetchMore_asks user ck cs tok ts w :
  asks 10 w (fetchMore user ck cs tok ts w).2.
Proof.
  unfold fetchMore. destruct (_ || _); [by apply asks_same |].
  rewrite run_bind.
  destruct (connect_spec ck cs tok ts w) as (cons & sess & ->).
  set (w1 := set_sessions _ _). unfold defer. rewrite run_bind.
  pose proof (loop_asks 10 user (init user) w1) as Hl.
  destruct (loop 10 user (init user) w1) as [[r|code] w2]; simpl in *;
    exact Hl.
Qed.

(** C3.  Whatever the cache holds and whatever the remote service would
    serve, one call of the fetcher adds at most 10 requests to those
    already sent, and removes or alters none. *)
Theorem fetchMore_at_most_ten_requests user ck cs tok ts w :
  exists l,
    requests (fetchMore user ck cs tok ts w).2 = requests w ++ l /\
    (length l <= 10)%nat.
Proof. apply fetchMore_asks. Qed.

(** C10.  A call of the fetcher for [user] leaves the cached history of
    every other user as it was, and the posts cached for [user] before the
    call are a prefix of the history cached for [user] after it; this holds
    for every world, hence for every behaviour of the remote service, and
    however the call ends. *)
Theorem fetchMore_frame user ck cs tok ts w :
  (forall u, u ≠ user ->
     Users (heap (fetchMore user ck cs tok ts w).2) !! u =
     Users (heap w) !! u) /\
  history (heap w) user `prefix_of`
    history (heap (fetchMore user ck cs tok ts w).2) user.
Proof. apply fetchMore_extends. Qed.

(** ** The cursor *)

Lemma Int64_sub_1 x :
  Int64.min < x <= Int64.max -> Int64.sub x 1 = x - 1.
Proof.
  unfold Int64.sub, Int64.wrap, Int64.min, Int64.max. intros Hx.
  rewrite Z.mod_small; lia.
Qed.

(** The loop runs its passes one after the other. *)
Lemma loop_pass k n user st w st' w' :
  pass k user st w = Some (st', w') ->
  loop (k + n) user st w = loop n user st' w'.
Proof.
  revert st w. induction k as [|k IH]; intros st w; simpl.
  - by intros [= -> ->].
  - rewrite run_bind.
    destruct (iteration user st w) as [[[st1| |err]|code] w1]; try done.
    apply IH.
Qed.

(** A cursor is only ever carried along with a history to take it from. *)
Lemma pass_cursor_inv k user st w st' w' :
  pass k user st w = Some (st', w') ->
  (v st !! "max_id" = None \/ history (heap w) user ≠ []) ->
  v st' !! "max_id" = None \/ history (heap w') user ≠ [].
Proof.
  revert st w. induction k as [|k IH]; intros st w; simpl.
  - by intros [= -> ->].
  - pose proof (iteration_extends user st w) as [_ Hpre].
    rewrite iteration_eq in *. simpl in *.
    destruct (answer user (v st) w) as [timeline err].
    assert (forall w1,
              history (heap w) user `prefix_of` history (heap w1) user ->
              (v st !! "max_id" = None \/ history (heap w) user ≠ []) ->
              cursor user (v st) w !! "max_id" = None \/
              history (heap w1) user ≠ []) as Hstep.
    { intros w1 [l Hl] Hinv.
      assert (history (heap w) user ≠ [] -> history (heap w1) user ≠ [])
        as Hne.
      { intros Hh E. rewrite Hl in E. by apply app_nil in E as [? _]. }
      unfold cursor. destruct (last (history (heap w) user)) eqn:E.
      - right. apply Hne. intros E'. by rewrite E' in E.
      - destruct Hinv as [Hv|Hh]; [by left | right; by apply Hne]. }
    destruct err as [e|]; [destruct (first st) |]; try done;
      (destruct (_ || _); [done |]);
      destruct (merge _ _ _ _) as [[i|code] w1]; try done;
      intros Hp Hinv; apply (IH _ _ Hp); simpl in *; by apply Hstep.
Qed.

(** C4.  In every pass of the fetcher's loop (pass number [k] starts with
    locals [st] in world [w]) exactly one request is sent.  When the
    history cached for the user is not empty at that moment, the request
    carries [max_id], the decimal form of the id of the last cached post
    minus 1, the subtraction being that of [int64] (so it is the id minus 1
    for every id above the least [int64]); when the history is empty, the
    request carries no [max_id]. *)
Theorem cursor_of_each_request user k w0 st w :
  pass k user (init user) w0 = Some (st, w) ->
  exists req,
    requests (iteration user st w).2 = requests w ++ [req] /\
    match last (history (heap w) user) with
    | Some t =>
        req !! "max_id" = Some [FormatInt (Int64.sub (Id t) 1)] /\
        (Int64.min < Id t <= Int64.max -> Int64.sub (Id t) 1 = Id t - 1)
    | None => req !! "max_id" = None
    end.
Proof.
  intros Hp. exists (cursor user (v st) w).
  split; [apply iteration_requests |].
  apply pass_cursor_inv in Hp; [| by left].
  unfold cursor. destruct (last (history (heap w) user)) as [t|] eqn:E.
  - split; [apply lookup_insert_eq | apply Int64_sub_1].
  - destruct Hp as [Hv|Hh]; [done |]. by apply last_None in E.
Qed.

(** ** Aggregator *)

(** The example history on the clocks that the code reads.  For three
    posts whose timestamps show, each in its own location, the hours 3, 3
    and 14 and the weekdays Monday, Monday and Friday, and whose places
    are "NYC", none and "NYC", the aggregation counts 2 at hour 3, 1 at
    hour 14 and 0 at every other hour; 2 on Monday, 1 on Friday and 0 on
    every other weekday; and its place counts are exactly "NYC" with 2.
    For timestamps in UTC these are the UTC hours and weekdays. *)
Lemma aggregate_example (t1 t2 t3 : Time) (i1 i2 i3 : Z) :
  Hour t1 = 3 -> Hour t2 = 3 -> Hour t3 = 14 ->
  Weekday t1 = Monday -> Weekday t2 = Monday -> Weekday t3 = Friday ->
  let s := aggregate [mkTweet t1 i1 "NYC"; mkTweet t2 i2 "";
                      mkTweet t3 i3 "NYC"] in
  hours s = <[3%nat := 2]> (<[14%nat := 1]> (replicate 24 0)) /\
  weekdays s =
    <[Z.to_nat Monday := 2]> (<[Z.to_nat Friday := 1]> (replicate 7 0)) /\
  placesMap s = {["NYC" := 2]}.
Proof.
  intros H1 H2 H3 D1 D2 D3. unfold aggregate. cbn [foldl].
  unfold tally. cbn [CreatedAt Place hours weekdays placesMap places placesLen].
  rewrite H1, H2, H3, D1, D2, D3.
  repeat split; vm_compute; reflexivity.
Qed.

(** ** Cache store *)

Lemma load_eq w :
  load w =
  (Val tt,
   set_heap
     match files w !! "restroom.json" with
     | None => mkCache ∅
     | Some data =>
         match Decode data ∅ with
         | SyntaxError _ => mkCache ∅
         | Stored None _ => mkCache ∅
         | Stored (Some m) _ => mkCache m
         end
     end w).
Proof.
  unfold load, os_Open. rewrite run_bind. simpl.
  destruct (files w !! "restroom.json") as [data|]; [| done]. simpl.
  by destruct (Decode data ∅) as [e|[m|] e].
Qed.


Lemma save_eq w :
  save w =
  match Marshal (heap w) with
  | inl b =>
      let w1 := set_written (written w ++ [("restroom.json", b)]) w in
      (Val tt,
       match write_error w with
       | Some _ => w1
       | None => set_files (<["restroom.json" := b]> (files w)) w1
       end)
  | inr err => (Exit 1, logged "json: %v" [AStr err] w)
  end.
Proof.
  unfold save. rewrite run_bind. simpl.
  destruct (Marshal (heap w)) as [b|err]; [| done].
  rewrite run_bind. unfold ioutil_WriteFile. simpl.
  by destruct (write_error w).
Qed.

(** C7, as the code has it.  [save] serializes the cache and hands the
    bytes to one write of [restroom.json]; it yields no value, whatever
    the write did, so nothing is surfaced to its caller.  A serialization
    failure is logged and ends the process with status 1 at the point of
    save, before any write. *)
Theorem save_outcome w :
  match Marshal (heap w) with
  | inl b =>
      exists w',
        save w = (Val tt, w') /\
        written w' = written w ++ [("restroom.json", b)] /\
        stderr w' = stderr w /\ heap w' = heap w
  | inr err =>
      save w = (Exit 1, logged "json: %v" [AStr err] w) /\
      written (save w).2 = written w
  end.
Proof.
  rewrite save_eq. destruct (Marshal (heap w)) as [b|err].
  - eexists. split; [reflexivity |]. by destruct (write_error w).
  - split; [done |]. simpl. unfold logged. by destruct (logging w).
Qed.

(** ** Duplicates *)

Lemma fresh_so_far_heap user old ids w w' :
  heap w' = heap w -> fresh_so_far user old ids w ->
  fresh_so_far user old ids w'.
Proof. intros E. unfold fresh_so_far. by rewrite E. Qed.

Lemma merge_fresh user old timeline ids w :
  (forall tw, tw ∈ timeline -> anaconda.Id tw ∉ Id <$> old) ->
  fresh_so_far user old ids w ->
  exists ids',
    fresh_so_far user old ids' (merge user timeline ids w).2 /\
    forall a, (merge user timeline ids w).1 = Val a -> a = ids'.
Proof.
  revert ids w. induction timeline as [|tweet timeline IH]; intros ids w Hnew;
    simpl.
  - intros Hinv. exists ids. split; [done |]. by intros a [= <-].
  - assert (forall tw, tw ∈ timeline -> anaconda.Id tw ∉ Id <$> old) as Hnew'.
    { intros tw Htw. apply Hnew. by right. }
    case_decide as Hseen; [by apply IH |].
    intros Hinv.
    destruct (CreatedAtTime tweet) as [t|err].
    + rewrite run_bind. simpl. apply IH; [done |].
      destruct Hinv as (added & Hh & Hnd & Hin).
      exists (added ++ [mkTweet t (anaconda.Id tweet)
                          (anaconda.Name (anaconda.Place_ tweet))]).
      simpl. rewrite history_append, decide_True by done.
      split; [by rewrite Hh, app_assoc |].
      rewrite fmap_app. simpl. split.
      * apply NoDup_app. split; [done |]. split; [| apply NoDup_singleton].
        intros x Hx Hx'. apply list_elem_of_singleton in Hx'. subst x.
        destruct (Hin _ Hx) as [Hs _]. exact (Hseen Hs).
      * intros x Hx. apply elem_of_app in Hx as [Hx | Hx].
        -- destruct (Hin _ Hx) as [Hs Ho].
           split; [apply elem_of_union; by right | exact Ho].
        -- apply list_elem_of_singleton in Hx. subst x.
           split; [apply elem_of_union; left; by apply elem_of_singleton |].
           apply Hnew. by left.
    + exists ids. split; [| by unfold log_Fatalf; rewrite run_bind].
      apply (fresh_so_far_heap user old ids w); [| done].
      unfold log_Fatalf. rewrite run_bind. simpl. apply logged_heap.
Qed.

Lemma iteration_fresh user old st w :
  (forall tw, tw ∈ (answer user (v st) w).1 ->
     anaconda.Id tw ∉ Id <$> old) ->
  fresh_so_far user old (ids st) w ->
  exists ids',
    fresh_so_far user old ids' (iteration user st w).2 /\
    forall st', (iteration user st w).1 = Val (Next st') -> ids st' = ids'.
Proof.
  intros Hnew Hinv. rewrite iteration_eq. simpl.
  assert (fresh_so_far user old (ids st) (asked user (v st) w)) as Hasked.
  { apply (fresh_so_far_heap user old (ids st) w); [apply asked_heap | done]. }
  destruct (answer user (v st) w) as [timeline err]. simpl in Hnew.
  assert (exists ids',
    fresh_so_far user old ids'
      (if bool_decide (timeline = []) || bool_decide (is_Some err)
       then (Val Break, asked user (v st) w)
       else
         match merge user timeline (ids st) (asked user (v st) w) with
         | (Val ids, w'') =>
             (Val (Next (mkLocals (cursor user (v st) w) false ids)), w'')
         | (Exit code, w'') => (Exit code, w'')
         end).2 /\
    forall st',
      (if bool_decide (timeline = []) || bool_decide (is_Some err)
       then (Val Break, asked user (v st) w)
       else
         match merge user timeline (ids st) (asked user (v st) w) with
         | (Val ids, w'') =>
             (Val (Next (mkLocals (cursor user (v st) w) false ids)), w'')
         | (Exit code, w'') => (Exit code, w'')
         end).1 = Val (Next st') -> ids st' = ids') as Hrest.
  { destruct (_ || _); [exists (ids st); by split |].
    destruct (merge_fresh user old timeline (ids st) (asked user (v st) w))
      as (ids' & Hm & Hv); [done | done |].
    exists ids'. destruct (merge _ _ _ _) as [[i|code] w1]; simpl in *.
    - split; [done |]. intros st' [= <-]. simpl. by apply Hv.
    - by split. }
  destruct err as [e|]; [destruct (first st) |]; try exact Hrest.
  exists (ids st). by split.
Qed.

Lemma loop_fresh n user old st w :
  (forall i req tw,
     requests (loop n user st w).2 !! i = Some req ->
     (length (requests w) <= i)%nat ->
     tw ∈ (twitter w i req).1 -> anaconda.Id tw ∉ Id <$> old) ->
  fresh_so_far user old (ids st) w ->
  exists ids', fresh_so_far user old ids' (loop n user st w).2.
Proof.
  revert st w. induction n as [|n IH]; intros st w; simpl; [by eauto |].
  rewrite run_bind. intros Hnew Hinv.
  pose proof (iteration_requests user st w) as Hreq.
  pose proof (iteration_blind twitter twitter_blind user st w) as Htw.
  pose proof (iteration_fresh user old st w) as Hfresh.
  unfold same in Htw.
  destruct (iteration user st w) as [[c|code] w1] eqn:Eit; simpl in *.
  - assert (exists l,
              requests
                (match c with
                 | Next st0 => loop n user st0
                 | Break => mret None
                 | Return err => mret (Some err)
                 end w1).2 = requests w ++ [cursor user (v st) w] ++ l)
      as [l Hl].
    { destruct c as [st'| |e]; simpl.
      - destruct (loop_asks n user st' w1) as (l & -> & _).
        exists l. by rewrite Hreq, <-app_assoc.
      - exists []. by rewrite Hreq.
      - exists []. by rewrite Hreq. }
    destruct Hfresh as (ids' & Hf & Hids); [| done |].
    { intros tw Hin.
      apply (Hnew (length (requests w)) (cursor user (v st) w)); [| lia | done].
      rewrite Hl. by apply list_lookup_middle. }
    destruct c as [st'| |e]; simpl in *; eauto.
    apply IH; [| by rewrite (Hids st')].
    intros i req tw Hi Hle. rewrite Htw. apply Hnew; [done |].
    rewrite Hreq in Hle. rewrite length_app in Hle. lia.
  - destruct Hfresh as (ids' & Hf & _); [| done | by eauto].
    intros tw Hin.
    apply (Hnew (length (requests w)) (cursor user (v st) w)); [| lia | done].
    rewrite Hreq. by apply list_lookup_middle.
Qed.

Lemma fresh_so_far_distinct user old ids w :
  NoDup (Id <$> old) -> fresh_so_far user old ids w ->
  distinct_ids (history (heap w) user).
Proof.
  intros Hold (added & -> & Hnd & Hin). unfold distinct_ids.
  rewrite fmap_app. apply NoDup_app. split; [done |]. split; [| done].
  intros x Hx Hx'. by apply Hin in Hx' as [_ ?].
Qed.

(** C2, as the code has it.  Suppose that before a call of the fetcher for
    [user] no history in the cache has two posts with one id, and that no
    post the service returns in answer to a request of this call has an id
    that is already in the history cached for [user] before the call.
    Then after the call no history in the cache has two posts with one id:
    an id that comes back in several pages of the call is added once. *)
Theorem fetchMore_distinct_ids user ck cs tok ts w :
  (forall u, distinct_ids (history (heap w) u)) ->
  (forall i req tw,
     requests (fetchMore user ck cs tok ts w).2 !! i = Some req ->
     (length (requests w) <= i)%nat ->
     tw ∈ (twitter w i req).1 ->
     anaconda.Id tw ∉ Id <$> history (heap w) user) ->
  forall u, distinct_ids (history (heap (fetchMore user ck cs tok ts w).2) u).
Proof.
  intros Hold Hnew u.
  destruct (decide (u = user)) as [->|Hu].
  2:{ destruct (fetchMore_extends user ck cs tok ts w) as [Ho _].
      unfold history. rewrite Ho by done. apply Hold. }
  destruct ((len tok =? 0)%Z || (len ts =? 0)%Z) eqn:Etok.
  { unfold fetchMore. rewrite Etok. apply Hold. }
  rewrite fetchMore_eq in * by done.
  destruct (connect_spec ck cs tok ts w) as (cons & sess & Ec).
  rewrite Ec in *. cbn [snd] in *. set (w1 := set_sessions _ _) in *.
  destruct (loop_fresh 10 user (history (heap w) user) (init user) w1)
    as (ids' & Hf).
  - intros i req tw Hi Hle. apply Hnew; [| done].
    destruct (loop 10 user (init user) w1) as [[r|code] w2]; exact Hi.
  - exists []. rewrite app_nil_r. split; [done |].
    split; [constructor | ]. intros x Hx. by apply elem_of_nil in Hx.
  - apply (fresh_so_far_distinct user (history (heap w) user) ids');
      [apply Hold |].
    destruct (loop 10 user (init user) w1) as [[r|code] w2]; exact Hf.
Qed.

(** ** The process *)

Lemma len_nonempty s : s ≠ "" -> (len s =? 0)%Z = false.
Proof. destruct s; [done |]. intros _. unfold len. simpl. lia. Qed.

Lemma prints_ret {A} (a : A) : prints (mret a).
Proof.
  intros w. exists a, []. destruct w. unfold set_stdout. simpl.
  by rewrite app_nil_r.
Qed.

Lemma prints_Printf f a : prints (fmt_Printf f a).
Proof. intros w. by exists tt, [Printf f a]. Qed.

Lemma prints_bind {A B} (m : M A) (k : A -> M B) :
  prints m -> (forall a, prints (k a)) -> prints (m ≫= k).
Proof.
  intros Hm Hk w. rewrite run_bind.
  destruct (Hm w) as (a & o1 & ->).
  destruct (Hk a (set_stdout (stdout w ++ o1) w)) as (b & o2 & ->).
  exists b, (o1 ++ o2). unfold set_stdout. simpl. by rewrite app_assoc.
Qed.

Lemma prints_each {A} (f : Z -> A -> M unit) (l : list A) :
  (forall i x, prints (f i x)) -> prints (print_each f l).
Proof.
  intros Hf. unfold print_each.
  induction (imap pair l) as [|ix l' IH]; simpl; [apply prints_ret |].
  apply prints_bind; [apply Hf | by intros _].
Qed.

Lemma prints_report n s : prints (report n s).
Proof.
  unfold report.
  repeat first
    [ apply prints_bind; [| intros _]
    | apply prints_Printf
    | apply prints_each; intros ? ? ].
Qed.

Lemma loaded_eq f w :
  exists c lg,
    loaded f w = set_heap c (set_logging lg w) /\
    (files w !! "restroom.json" = None -> c = mkCache ∅).
Proof.
  unfold loaded. rewrite run_bind.
  destruct (negb (verbose f)); simpl; rewrite load_eq; simpl.
  - eexists _, false. split; [reflexivity |]. by intros ->.
  - eexists _, (logging w). split; [by destruct w |]. by intros ->.
Qed.

Lemma mainImpl_eq f w :
  NArg f = 0 -> user f ≠ "" ->
  mainImpl f w = defer save (fetch_and_report f) (loaded f w).
Proof.
  intros Hn Hu. unfold mainImpl, loaded. rewrite !run_bind.
  rewrite Hn, (len_nonempty _ Hu). simpl.
  destruct (negb (verbose f)); simpl; rewrite run_bind, load_eq; done.
Qed.

(** What the process does once the fetch step is over. *)
Lemma run_eq f w :
  NArg f = 0 -> user f ≠ "" ->
  run f w =
  match fetch_and_report f (loaded f w) with
  | (Exit code, w1) => (code, w1)
  | (Val r, w1) =>
      match save w1 with
      | (Exit code, w2) => (code, w2)
      | (Val _, w2) =>
          match r with
          | Some err =>
              (1, set_stderr
                    (stderr w2 ++ [Printf "restroom: %s.\n" [AStr err]]) w2)
          | None => (0, w2)
          end
      end
  end.
Proof.
  intros Hn Hu. unfold run, main. rewrite run_bind, mainImpl_eq by done.
  unfold defer. rewrite run_bind.
  destruct (fetch_and_report f (loaded f w)) as [[r|code] w1]; [| done].
  rewrite run_bind. destruct (save w1) as [[[]|code] w2]; [| done].
  simpl. by destruct r.
Qed.

Lemma fetch_and_report_eq f w :
  token f ≠ "" ->
  fetch_and_report f w =
  match fetchMore (user f) (consumerKey f) (consumerSecret f) (token f)
                  (tokenSecret f) w with
  | (Exit code, w1) => (Exit code, w1)
  | (Val (Some err), w1) => (Val (Some err), w1)
  | (Val None, w1) =>
      (report (Z.of_nat (length (history (heap w1) (user f))))
              (aggregate (history (heap w1) (user f)));; mret None) w1
  end.
Proof.
  intros Ht. unfold fetch_and_report. rewrite (len_nonempty _ Ht). simpl.
  rewrite run_bind.
  by destruct (fetchMore _ _ _ _ _ w) as [[[err|]|code] w1].
Qed.

Lemma fetchMore_first_fails user ck cs tok ts w e :
  tok ≠ "" -> ts ≠ "" ->
  (answer user (base_values user) (connect ck cs tok ts w).2).2 = Some e ->
  fetchMore user ck cs tok ts w =
  (Val (Some e),
   let w' := asked user (base_values user) (connect ck cs tok ts w).2 in
   set_sessions (tail (sessions w')) w').
Proof.
  intros Ht Hs He. rewrite fetchMore_eq
    by (by rewrite (len_nonempty _ Ht), (len_nonempty _ Hs)).
  change (loop 10) with (loop (S 9)). cbn [loop].
  rewrite run_bind, iteration_eq. cbn [init v first ids].
  destruct (answer _ _ _) as [timeline err]. simpl in He. by subst err.
Qed.

(** C5.  Take flags that pass the checks of [mainImpl] and carry a token
    and a token secret, and suppose that the service answers the first
    request of the run, the one that the fetcher builds from the cache as
    [load] produced it, with the error [e].  Then the fetcher returns [e]
    having sent that one request, and leaves the cache as [load] produced
    it (empty when there was no file); the process prints no report, hands
    that same cache to [save], which writes its serialization once, and
    ends with status 1. *)
Theorem first_request_failure f w e :
  NArg f = 0 -> user f ≠ "" -> token f ≠ "" -> tokenSecret f ≠ "" ->
  (twitter w (length (requests w))
           (cursor (user f) (base_values (user f)) (loaded f w))).2 =
    Some e ->
  exists w1 w',
    fetchMore (user f) (consumerKey f) (consumerSecret f) (token f)
              (tokenSecret f) (loaded f w) = (Val (Some e), w1) /\
    requests w1 =
      requests w ++ [cursor (user f) (base_values (user f)) (loaded f w)] /\
    heap w1 = heap (loaded f w) /\
    run f w = (1, w') /\
    heap w' = heap (loaded f w) /\
    stdout w' = stdout w /\
    written w' =
      written w ++
      match Marshal (heap (loaded f w)) with
      | inl b => [("restroom.json", b)]
      | inr _ => []
      end /\
    (files w !! "restroom.json" = None -> heap w' = mkCache ∅).
Proof.
  intros Hn Hu Ht Hs He.
  destruct (loaded_eq f w) as (c & lg & El & Hc).
  set (w0 := loaded f w) in *.
  destruct (connect_spec (consumerKey f) (consumerSecret f) (token f)
              (tokenSecret f) w0) as (cons & sess & Ec).
  set (wc := set_sessions sess (set_consumer cons w0)) in *.
  assert (requests wc = requests w /\ twitter wc = twitter w /\
          heap wc = heap w0) as (Erq & Etw & Ehp).
  { subst wc. simpl. by rewrite El. }
  set (req := cursor (user f) (base_values (user f)) w0) in *.
  assert (cursor (user f) (base_values (user f)) wc = req) as Ereq.
  { subst req. unfold cursor. by rewrite Ehp. }
  assert ((answer (user f) (base_values (user f)) wc).2 = Some e) as Ha.
  { unfold answer. by rewrite Ereq, Etw, Erq. }
  pose proof (fetchMore_first_fails (user f) (consumerKey f)
                (consumerSecret f) (token f) (tokenSecret f) w0 e Ht Hs) as Ef.
  rewrite Ec in Ef. cbn [snd] in Ef. specialize (Ef Ha). fold wc in Ef.
  set (w1 := set_sessions _ (asked _ _ wc)) in Ef.
  assert (heap w1 = heap w0) as Eh1.
  { subst w1. simpl. by rewrite asked_heap. }
  assert (requests w1 = requests w ++ [req]) as Er1.
  { subst w1. simpl. by rewrite asked_requests, Erq, Ereq. }
  assert (written w1 = written w /\ stdout w1 = stdout w) as (Ew1 & Eo1).
  { pose proof (fetchMore_blind written written_blind (user f)
                  (consumerKey f) (consumerSecret f) (token f)
                  (tokenSecret f) w0) as Hw.
    pose proof (fetchMore_blind stdout stdout_blind (user f)
                  (consumerKey f) (consumerSecret f) (token f)
                  (tokenSecret f) w0) as Ho.
    unfold same in *. rewrite Ef in *. subst w1. simpl in *.
    rewrite Hw, Ho. subst w0. by rewrite El. }
  clearbody w1. exists w1.
  rewrite run_eq, fetch_and_report_eq by done. fold w0. rewrite Ef.
  cbv beta iota. rewrite save_eq, Eh1.
  destruct (Marshal (heap w0)) as [b|err] eqn:Em.
  - eexists. split; [done |]. split; [done |].
    split; [done |]. split; [reflexivity |].
    destruct (write_error w1); simpl; rewrite Eh1, Eo1, Ew1;
      (repeat split; try done); intros Hf; subst w0;
      rewrite El; simpl; by rewrite Hc.
  - eexists. split; [done |]. split; [done |].
    split; [done |]. split; [reflexivity |]. simpl.
    rewrite logged_heap, Eh1, app_nil_r.
    unfold logged. destruct (logging w1); simpl; rewrite Eo1, Ew1;
      (repeat split; try done); intros Hf; subst w0;
      rewrite El; simpl; by rewrite Hc.
Qed.

Lemma pass_first k user st w st' w' :
  pass (S k) user st w = Some (st', w') -> first st' = false.
Proof.
  revert st w. induction k as [|k IH]; intros st w.
  - cbn [pass]. rewrite iteration_eq. simpl.
    destruct (answer user (v st) w) as [timeline err].
    destruct err as [e|]; [destruct (first st) |]; try done;
      (destruct (_ || _); [done |]);
      destruct (merge _ _ _ _) as [[i|code] w1]; try done;
      by intros [= <- _].
  - change (pass (S (S k)) user st w) with
      (match iteration user st w with
       | (Val (Next st1), w1) => pass (S k) user st1 w1
       | _ => None
       end).
    destruct (iteration user st w) as [[[st1| |err]|code] w1]; try done.
    apply IH.
Qed.

Lemma loop_stops k m user w st w1 :
  pass k user (init user) w = Some (st, w1) ->
  stops k (answer user (v st) w1) ->
  loop (S m) user st w1 = (Val None, asked user (v st) w1).
Proof.
  intros Hp Hstop. cbn [loop]. rewrite run_bind, iteration_eq.
  cbv zeta. destruct (answer user (v st) w1) as [timeline err].
  destruct Hstop as [[Ht He] | [Hk [e He]]]; simpl in *; subst.
  - by destruct (first st).
  - destruct k as [|k]; [lia |]. rewrite (pass_first _ _ _ _ _ _ Hp).
    by rewrite orb_true_r.
Qed.

(** C6.  Take flags that pass the checks of [mainImpl] and carry a token
    and a token secret.  Suppose the fetcher's loop reaches pass number [k]
    (from 0, below 10) in world [w1], the [k] passes before it having each
    merged a page, and the answer in this pass is an empty page without an
    error, or, [k] being at least 1, an error.  Then the fetcher returns
    without an error and the cache stays as the earlier passes left it; the
    process hands that cache to [save], which writes its serialization [b]
    once (and the file holds [b] when it can be written), and ends with
    status 0. *)
Theorem quiet_stop f w k st w1 b :
  NArg f = 0 -> user f ≠ "" -> token f ≠ "" -> tokenSecret f ≠ "" ->
  (k < 10)%nat ->
  pass k (user f) (init (user f))
       (connect (consumerKey f) (consumerSecret f) (token f) (tokenSecret f)
                (loaded f w)).2 = Some (st, w1) ->
  stops k (answer (user f) (v st) w1) ->
  Marshal (heap w1) = inl b ->
  exists w2 w',
    fetchMore (user f) (consumerKey f) (consumerSecret f) (token f)
              (tokenSecret f) (loaded f w) = (Val None, w2) /\
    heap w2 = heap w1 /\
    run f w = (0, w') /\
    heap w' = heap w1 /\
    written w' = written w ++ [("restroom.json", b)] /\
    (write_error w = None -> files w' !! "restroom.json" = Some b).
Proof.
  intros Hn Hu Ht Hs Hk Hp Hstop Hm.
  destruct (loaded_eq f w) as (c & lg & El & _).
  set (w0 := loaded f w) in *.
  assert (fetchMore (user f) (consumerKey f) (consumerSecret f) (token f)
            (tokenSecret f) w0 =
          (Val None,
           set_sessions (tail (sessions (asked (user f) (v st) w1)))
             (asked (user f) (v st) w1))) as Ef.
  { rewrite fetchMore_eq
      by (by rewrite (len_nonempty _ Ht), (len_nonempty _ Hs)).
    replace 10%nat with (k + S (9 - k))%nat by lia.
    rewrite (loop_pass _ _ _ _ _ _ _ Hp).
    by rewrite (loop_stops _ _ _ _ _ _ Hp Hstop). }
  set (w2 := set_sessions _ _) in Ef.
  assert (heap w2 = heap w1) as Eh2.
  { subst w2. simpl. apply asked_heap. }
  assert (written w2 = written w /\ write_error w2 = write_error w)
    as (Ew2 & Ee2).
  { pose proof (fetchMore_blind written written_blind (user f)
                  (consumerKey f) (consumerSecret f) (token f)
                  (tokenSecret f) w0) as Hw.
    pose proof (fetchMore_blind write_error write_error_blind (user f)
                  (consumerKey f) (consumerSecret f) (token f)
                  (tokenSecret f) w0) as He.
    unfold same in *. rewrite Ef in *. cbn [snd] in *.
    rewrite Hw, He. subst w0. by rewrite El. }
  clearbody w2. exists w2.
  rewrite run_eq, fetch_and_report_eq by done. fold w0. rewrite Ef.
  cbv beta iota. rewrite run_bind.
  destruct (prints_report
              (Z.of_nat (length (history (heap w2) (user f))))
              (aggregate (history (heap w2) (user f))) w2) as ([] & out & ->).
  simpl. rewrite save_eq. simpl. rewrite Eh2, Hm, Ee2, Ew2.
  eexists. split; [done |]. split; [done |]. split; [reflexivity |].
  destruct (write_error w) as [e|]; simpl; rewrite ?Eh2, ?Ew2;
    (repeat split; try done).
  intros _. apply lookup_insert_eq.
Qed.

End Properties.

(** * The program on concrete runs *)

Section Runs.
#[local] Existing Instance Demo.libs.

(** C1.  A first page whose second post has a timestamp that does not
    parse: the first post is merged into the cache, then [log.Fatalf] ends
    the process with status 1.  The deferred [save] never runs: nothing is
    handed to [ioutil.WriteFile] and no cache file exists afterwards, so
    the post merged before the failure is lost. *)
Theorem timestamp_failure_skips_save :
  let r := run (Demo.flags_for "bob" "tok" "sec")
               (Demo.boot ∅ None (Demo.serve [Demo.bad_page])) in
  r.1 = 1 /\
  Id <$> history (heap r.2) "bob" = [20] /\
  written r.2 = [] /\
  files r.2 = ∅.
Proof. vm_compute. done. Qed.

(** Against C2 as stated.  The cache holds posts 5 and 10 of alice, with
    distinct ids; the cursor is 9 and the service answers with posts 9 and
    5.  Post 5 is appended a second time. *)
Lemma overlap_duplicates_id :
  let w := loaded (Demo.flags_for "alice" "tok" "sec") Demo.overlap in
  (forall u, distinct_ids (history (heap w) u)) /\
  ~ distinct_ids
      (history (heap (fetchMore "alice" "" "" "tok" "sec" w).2) "alice").
Proof.
  intros w. split.
  - intros u. unfold distinct_ids, history.
    change (Users (heap w))
      with (<["alice" := Demo.alice]> (∅ : gmap string (list Tweet))).
    destruct (decide (u = "alice")) as [->|Hu].
    + rewrite lookup_insert_eq. simpl.
      apply (bool_decide_unpack _). vm_compute. exact I.
    + rewrite lookup_insert_ne, lookup_empty by done. constructor.
  - unfold distinct_ids.
    replace (Id <$> _) with [5; 10; 9; 5] by (vm_compute; reflexivity).
    intros Hnd. apply NoDup_cons in Hnd as [Hn _]. apply Hn.
    do 2 right. left.
Qed.

(** Against C7 as stated.  The cache file cannot be written.  [save]
    returns as it does after a successful write, the process ends with
    status 0 and nothing is printed on stderr, although logging is on; no
    file has been written. *)
Lemma unwritable_cache_is_silent :
  let w := Demo.boot ∅ (Some "open restroom.json: permission denied")
                     (Demo.serve []) in
  let r := run (Demo.flags_for "bob" "" "") w in
  r.1 = 0 /\
  stderr r.2 = [] /\
  written r.2 = [("restroom.json", "{Users:{}}")] /\
  files r.2 = ∅ /\
  (save (loaded (Demo.flags_for "bob" "" "") w)).1 = Val tt.
Proof. vm_compute. done. Qed.


(** C9.  The cache file holds three posts of bob with places "NYC", none
    and "NYC", made at the UTC hours 3, 3 and 14 of a Monday, a Monday and
    a Friday; the first one is written with the clock of a location five
    hours east of UTC.  The process is run for bob without a token.  The
    aggregation counts that post at hour 8, the hour its own clock shows,
    and the report, under the heading for hours in UTC, gives 1 at hour 3,
    1 at hour 8 and 1 at hour 14, not 2 at hour 3. *)
Theorem zoned_post_counts_at_its_own_hour :
  let h := Demo.zoned_posts in
  let f := mkFlags "bob" false "" "" "" "" 0 in
  let w := Demo.boot {["restroom.json" := Demo.zoned]} None Demo.refuse in
  let r := @run Demo.libs_json f w in
  (fun t => Hour (UTC (CreatedAt t))) <$> h = [3; 3; 14] /\
  (fun t => Weekday (UTC (CreatedAt t))) <$> h = [Monday; Monday; Friday] /\
  Place <$> h = ["NYC"; ""; "NYC"] /\
  (fun t => Hour (CreatedAt t)) <$> h = [8; 3; 14] /\
  hours (aggregate h) =
    <[3%nat := 1]> (<[8%nat := 1]> (<[14%nat := 1]> (replicate 24 0))) /\
  hours (aggregate h) ≠ <[3%nat := 2]> (<[14%nat := 1]> (replicate 24 0)) /\
  history (heap (@loaded Demo.libs_json f w)) "bob" = h /\
  r.1 = 0 /\
  stdout r.2 = report_lines 3 (aggregate h) /\
  stdout r.2 !! 1%nat = Some (Printf "Favorite hour in UTC:\n" []) /\
  stdout r.2 !! 5%nat = Some (Printf "  %2d: %3d\n" [AInt 3; AInt 1]) /\
  stdout r.2 !! 10%nat = Some (Printf "  %2d: %3d\n" [AInt 8; AInt 1]).
Proof.
  intros h f w r.
  repeat split; try (vm_compute; reflexivity).
  vm_compute. discriminate.
Qed.

Example paging_merges_once :
  Id <$> history
           (heap (fetchMore "alice" "" "" "tok" "sec"
                    (loaded (Demo.flags_for "alice" "tok" "sec")
                            Demo.paging)).2)
           "alice" = [5; 10; 9; 8; 7].
Proof. vm_compute. reflexivity. Qed.

Lemma fetchMore_distinct_ids_witness :
  distinct_ids
    (history
       (heap (fetchMore "alice" "" "" "tok" "sec"
                (loaded (Demo.flags_for "alice" "tok" "sec") Demo.paging)).2)
       "alice").
Proof.
  apply (fetchMore_distinct_ids "alice" "" "" "tok" "sec"
           (loaded (Demo.flags_for "alice" "tok" "sec") Demo.paging)).
  - intros u. unfold distinct_ids, history.
    change (Users (heap (loaded _ _)))
      with (<["alice" := Demo.alice]> (∅ : gmap string (list Tweet))).
    destruct (decide (u = "alice")) as [->|Hu].
    + rewrite lookup_insert_eq. simpl.
      apply (bool_decide_unpack _). vm_compute. exact I.
    + rewrite lookup_insert_ne, lookup_empty by done. constructor.
  - intros i req tw _ _.
    change (history (heap (loaded _ _)) "alice") with Demo.alice.
    change (twitter (loaded _ Demo.paging) i req)
      with (nth i [Demo.page1; Demo.page2] ([], None)).
    destruct i as [|[|[|i]]]; simpl; intros Htw;
      repeat (apply elem_of_cons in Htw as [-> | Htw];
              [apply (bool_decide_unpack _); vm_compute; exact I |]);
      by apply elem_of_nil in Htw.
Defined.

Lemma cursor_of_each_request_witness :
  exists st w req,
    pass 1 "bob" (init "bob") Demo.flaky = Some (st, w) /\
    requests (iteration "bob" st w).2 = requests w ++ [req] /\
    last (history (heap w) "bob") = Some (mkTweet 356400 8 "NYC") /\
    req !! "max_id" = Some ["7"].
Proof.
  assert (exists st w, pass 1 "bob" (init "bob") Demo.flaky = Some (st, w) /\
            last (history (heap w) "bob") = Some (mkTweet 356400 8 "NYC"))
    as (st & w & Hp & Hl).
  { eexists _, _. split; vm_compute; reflexivity. }
  destruct (cursor_of_each_request "bob" 1 Demo.flaky st w Hp)
    as (req & Hr & Hc).
  rewrite Hl in Hc. destruct Hc as [Hc _].
  exists st, w, req. done.
Defined.

Lemma first_request_failure_witness :
  let f := Demo.flags_for "bob" "tok" "sec" in
  let w := Demo.boot ∅ None Demo.picky in
  exists w1 w',
    fetchMore "bob" "" "" "tok" "sec" (loaded f w) =
      (Val (Some "Get statuses/user_timeline: 503"), w1) /\
    requests w1 = requests w ++ [cursor "bob" (base_values "bob") (loaded f w)] /\
    heap w1 = heap (loaded f w) /\
    run f w = (1, w') /\
    heap w' = heap (loaded f w) /\
    stdout w' = stdout w /\
    written w' =
      written w ++
      match Marshal (heap (loaded f w)) with
      | inl b => [("restroom.json", b)]
      | inr _ => []
      end /\
    (files w !! "restroom.json" = None -> heap w' = mkCache ∅).
Proof.
  intros f w.
  apply (first_request_failure f w "Get statuses/user_timeline: 503").
  - reflexivity.
  - discriminate.
  - discriminate.
  - discriminate.
  - vm_compute. reflexivity.
Defined.

Lemma quiet_stop_witness :
  let f := Demo.flags_for "bob" "tok" "sec" in
  exists st w1 b w2 w',
    pass 1 "bob" (init "bob")
         (connect "" "" "tok" "sec" (loaded f Demo.flaky)).2 =
      Some (st, w1) /\
    Id <$> history (heap w1) "bob" = [9; 8] /\
    Marshal (heap w1) = inl b /\
    fetchMore "bob" "" "" "tok" "sec" (loaded f Demo.flaky) =
      (Val None, w2) /\
    heap w2 = heap w1 /\
    run f Demo.flaky = (0, w') /\
    heap w' = heap w1 /\
    written w' = written Demo.flaky ++ [("restroom.json", b)] /\
    (write_error Demo.flaky = None ->
     files w' !! "restroom.json" = Some b).
Proof.
  intros f.
  assert (exists st w1 b,
            pass 1 "bob" (init "bob")
                 (connect "" "" "tok" "sec" (loaded f Demo.flaky)).2 =
              Some (st, w1) /\
            Id <$> history (heap w1) "bob" = [9; 8] /\
            Marshal (heap w1) = inl b /\
            answer "bob" (v st) w1 = ([], Some "timeout"))
    as (st & w1 & b & Hp & Hh & Hm & Ha).
  { eexists _, _, _. repeat split; vm_compute; reflexivity. }
  assert (stops 1 (answer (user f) (v st) w1)) as Hstop.
  { right. change (user f) with "bob". rewrite Ha. split; [lia | by eexists]. }
  destruct (quiet_stop f Demo.flaky 1 st w1 b) as (w2 & w' & Hq);
    [reflexivity | discriminate | discriminate | discriminate | lia
    | exact Hp | exact Hstop | exact Hm |].
  exists st, w1, b, w2, w'. done.
Defined.

Lemma aggregate_example_witness :
  let s := aggregate [mkTweet 356400 1 "NYC"; mkTweet 358200 2 "";
                      mkTweet 136800 3 "NYC"] in
  hours s = <[3%nat := 2]> (<[14%nat := 1]> (replicate 24 0)) /\
  weekdays s =
    <[Z.to_nat Monday := 2]> (<[Z.to_nat Friday := 1]> (replicate 7 0)) /\
  placesMap s = {["NYC" := 2]}.
Proof.
  apply (aggregate_example 356400 358200 136800 1 2 3); reflexivity.
Defined.

Lemma fetchMore_frame_witness :
  let w := loaded (Demo.flags_for "bob" "tok" "sec") Demo.paging in
  Users (heap (fetchMore "bob" "" "" "tok" "sec" w).2) !! "alice" =
    Users (heap w) !! "alice" /\
  history (heap w) "bob" `prefix_of`
    history (heap (fetchMore "bob" "" "" "tok" "sec" w).2) "bob".
Proof.
  intros w. destruct (fetchMore_frame "bob" "" "" "tok" "sec" w) as [Ho Hp].
  split; [apply Ho; discriminate | exact Hp].
Defined.

End Runs.

(** * Further properties of the program *)

Section More.
Context `{Libs}.
#[local] Existing Instance extends_preorder.
#[local] Existing Instance same_preorder.

(** ** What the loop leaves alone *)

Section LoopBlind.
Context {B : Type} (π : world -> B) (Hπ : untouched_by_loop π).

Lemma logged_loop_blind f a w : π (logged f a w) = π w.
Proof.
  destruct Hπ as (E & _). unfold logged.
  destruct (logging w); [apply E | reflexivity].
Qed.

Lemma asked_loop_blind user v w : π (asked user v w) = π w.
Proof.
  destruct Hπ as (_ & _ & E). unfold asked.
  rewrite logged_loop_blind, E, logged_loop_blind.
  destruct (last _); [apply logged_loop_blind | reflexivity].
Qed.

Lemma merge_loop_blind user timeline ids w :
  π (merge user timeline ids w).2 = π w.
Proof.
  revert ids w. induction timeline as [|tweet timeline IH]; intros ids w;
    simpl; [done |].
  case_decide; [apply IH |].
  destruct (CreatedAtTime tweet) as [t|err].
  - rewrite run_bind. simpl. rewrite IH.
    destruct Hπ as (_ & E & _). apply E.
  - unfold log_Fatalf. rewrite run_bind. simpl. apply logged_loop_blind.
Qed.

Lemma iteration_loop_blind user st w : π (iteration user st w).2 = π w.
Proof.
  rewrite iteration_eq. cbv zeta.
  pose proof (asked_loop_blind user (v st) w) as Ea.
  destruct (answer user (v st) w) as [timeline err].
  assert (π (if bool_decide (timeline = []) || bool_decide (is_Some err)
             then (Val Break, asked user (v st) w)
             else
               match merge user timeline (ids st) (asked user (v st) w) with
               | (Val ids, w'') =>
                   (Val (Next (mkLocals (cursor user (v st) w) false ids)),
                    w'')
               | (Exit code, w'') => (Exit code, w'')
               end).2 = π w) as Hrest.
  { destruct (_ || _); [exact Ea |].
    pose proof (merge_loop_blind user timeline (ids st)
                  (asked user (v st) w)) as Em.
    destruct (merge _ _ _ _) as [[i|code] w4]; simpl in *; congruence. }
  destruct err as [e|]; [destruct (first st) |]; try exact Hrest.
  exact Ea.
Qed.

Lemma loop_loop_blind n user st w : π (loop n user st w).2 = π w.
Proof.
  revert st w. induction n as [|n IH]; intros st w; simpl; [done |].
  rewrite run_bind. pose proof (iteration_loop_blind user st w) as E1.
  destruct (iteration user st w) as [[[st'| |err]|code] w1]; simpl in *;
    try exact E1.
  by rewrite IH.
Qed.

End LoopBlind.

Lemma sessions_loop_blind : untouched_by_loop sessions.
Proof. repeat split. Qed.

Lemma consumer_loop_blind : untouched_by_loop consumer.
Proof. repeat split. Qed.

(** X1.  The API session that [fetchMore] opens is closed again whenever
    [fetchMore] returns, with or without an error: the open sessions are
    then those of before the call.  When the call ends the process instead
    (a timestamp that does not parse), the session is still open. *)
Theorem fetchMore_session user ck cs tok ts w :
  match (fetchMore user ck cs tok ts w).1 with
  | Val _ => sessions (fetchMore user ck cs tok ts w).2 = sessions w
  | Exit _ =>
      sessions (fetchMore user ck cs tok ts w).2 = (tok, ts) :: sessions w
  end.
Proof.
  destruct ((len tok =? 0)%Z || (len ts =? 0)%Z) eqn:Etok.
  { unfold fetchMore. rewrite Etok. done. }
  rewrite fetchMore_eq by done.
  pose proof (loop_loop_blind sessions sessions_loop_blind 10 user
                (init user) (connect ck cs tok ts w).2) as El.
  assert (sessions (connect ck cs tok ts w).2 = (tok, ts) :: sessions w)
    as Ec.
  { unfold connect. rewrite !run_bind.
    by destruct (negb (len ck =? 0)%Z), (negb (len cs =? 0)%Z). }
  destruct (loop 10 user (init user) _) as [[r|code] w2]; simpl in *.
  - by rewrite El, Ec.
  - by rewrite El, Ec.
Qed.

(** X2.  A call of the fetcher never writes a file, never hands anything
    to [ioutil.WriteFile], never prints on stdout and never changes where
    log output goes, however it ends. *)
Theorem fetchMore_no_output user ck cs tok ts w :
  files (fetchMore user ck cs tok ts w).2 = files w /\
  written (fetchMore user ck cs tok ts w).2 = written w /\
  stdout (fetchMore user ck cs tok ts w).2 = stdout w /\
  logging (fetchMore user ck cs tok ts w).2 = logging w.
Proof.
  repeat split.
  - apply (fetchMore_blind files); repeat split.
  - apply (fetchMore_blind written); repeat split.
  - apply (fetchMore_blind stdout); repeat split.
  - apply (fetchMore_blind logging); repeat split.
Qed.

(** ** The process from start to end *)

Lemma set_stdout_nil w : set_stdout (stdout w ++ []) w = w.
Proof. destruct w. unfold set_stdout. simpl. by rewrite app_nil_r. Qed.

Lemma set_stdout_app o1 o2 w :
  set_stdout (stdout (set_stdout (stdout w ++ o1) w) ++ o2)
             (set_stdout (stdout w ++ o1) w) =
  set_stdout (stdout w ++ o1 ++ o2) w.
Proof. unfold set_stdout. simpl. by rewrite app_assoc. Qed.

Lemma emits_Printf f a : emits (fmt_Printf f a) [Printf f a].
Proof. intros w. reflexivity. Qed.

Lemma emits_seq (m k : M unit) o1 o2 :
  emits m o1 -> emits k o2 -> emits (m;; k) (o1 ++ o2).
Proof.
  intros Hm Hk w. rewrite run_bind, Hm, Hk. by rewrite set_stdout_app.
Qed.

Lemma emits_each {A} (f : Z -> A -> M unit) (g : Z -> A -> printed)
    (l : list A) :
  (forall i x, emits (f i x) [g i x]) ->
  emits (print_each f l) (imap (fun i x => g (Z.of_nat i) x) l).
Proof.
  intros Hf. unfold print_each.
  replace (imap (fun i x => g (Z.of_nat i) x) l)
    with ((fun ix : nat * A => g (Z.of_nat ix.1) ix.2) <$> imap pair l)
    by (by rewrite fmap_imap).
  induction (imap pair l) as [|ix l' IH]; simpl.
  - intros w. by rewrite set_stdout_nil.
  - apply (emits_seq _ _ [_] _); [apply Hf | exact IH].
Qed.

Lemma report_emits total s : emits (report total s) (report_lines total s).
Proof.
  unfold report, report_lines.
  apply (emits_seq _ _ [_] _); [apply emits_Printf |].
  apply (emits_seq _ _ [_] _); [apply emits_Printf |].
  apply emits_seq.
  { apply (emits_each _ (fun i n => Printf _ [AInt i; AInt n])).
    intros i n. apply emits_Printf. }
  apply (emits_seq _ _ [_] _); [apply emits_Printf |].
  apply emits_seq.
  { apply (emits_each _
             (fun i n => Printf _ [AStr (Weekday_String i); AInt n])).
    intros i n. apply emits_Printf. }
  apply (emits_seq _ _ [_] _); [apply emits_Printf |].
  rewrite <-(imap_const _ (sort_Strings (places s))).
  apply (emits_each _ (fun _ p => Printf _ [_; AStr p; _])).
  intros i p. apply emits_Printf.
Qed.

Lemma report_eq total s w :
  report total s w =
  (Val tt, set_stdout (stdout w ++ report_lines total s) w).
Proof. apply report_emits. Qed.

(** X3.  A usage error (a positional argument, or no [-u]) is found before
    anything is read or sent: the process ends with status 1 after
    printing one line that names the error on stderr; it has not loaded or
    written the cache file, sent no request and printed no report. *)
Theorem usage_error f w :
  NArg f ≠ 0 \/ user f = "" ->
  exists w',
    run f w = (1, w') /\
    stderr w' =
      stderr w ++
      [failure_line (if negb (NArg f =? 0)%Z then "unexpected argument"
                     else "-u is required")] /\
    files w' = files w /\ written w' = written w /\
    requests w' = requests w /\ heap w' = heap w /\
    stdout w' = stdout w.
Proof.
  intros Hbad. unfold run, main, mainImpl. rewrite !run_bind.
  assert (negb (NArg f =? 0)%Z = true \/
          (negb (NArg f =? 0)%Z = false /\ (len (user f) =? 0)%Z = true))
    as Hcase.
  { destruct (NArg f =? 0)%Z eqn:En; [| by left].
    right. split; [done |]. destruct Hbad as [Hn | ->]; [| done].
    by apply Z.eqb_eq in En. }
  destruct (negb (verbose f));
    destruct Hcase as [-> | [-> ->]]; simpl; eexists;
    (split; [reflexivity |]); done.
Qed.

(** X4.  With a token but no token secret, the fetcher gives up before it
    opens a session or sends a request.  The process prints no report,
    hands the cache to [save] as [load] produced it, and ends with
    status 1. *)
Theorem missing_token_secret f w :
  NArg f = 0 -> user f ≠ "" -> token f ≠ "" -> tokenSecret f = "" ->
  exists w',
    run f w = (1, w') /\
    requests w' = requests w /\
    sessions w' = sessions w /\
    heap w' = heap (loaded f w) /\
    stdout w' = stdout w /\
    written w' =
      written w ++
      match Marshal (heap (loaded f w)) with
      | inl b => [("restroom.json", b)]
      | inr _ => []
      end.
Proof.
  intros Hn Hu Ht Hs.
  destruct (loaded_eq f w) as (c & lg & El & _).
  rewrite run_eq, fetch_and_report_eq by done.
  unfold fetchMore. rewrite Hs. simpl. rewrite orb_true_r. simpl.
  rewrite save_eq.
  destruct (Marshal (heap (loaded f w))) as [b|err].
  - destruct (write_error (loaded f w)); eexists;
      (split; [reflexivity |]); rewrite El; simpl; done.
  - eexists. split; [reflexivity |]. rewrite app_nil_r.
    unfold logged. rewrite El. simpl. by destruct lg.
Qed.

(** X5.  Without a token the process works from the cache alone: it sends
    no request and opens no session, prints the report of the history that
    [load] produced for the user, hands that cache to [save] and ends
    with status 0 (the cache being one that [json.Marshal] accepts). *)
Theorem offline_report f w b :
  NArg f = 0 -> user f ≠ "" -> token f = "" ->
  Marshal (heap (loaded f w)) = inl b ->
  exists w',
    run f w = (0, w') /\
    requests w' = requests w /\
    sessions w' = sessions w /\
    heap w' = heap (loaded f w) /\
    stderr w' = stderr w /\
    written w' = written w ++ [("restroom.json", b)] /\
    stdout w' =
      stdout w ++
      let h := history (heap (loaded f w)) (user f) in
      report_lines (Z.of_nat (length h)) (aggregate h).
Proof.
  intros Hn Hu Ht Hm.
  destruct (loaded_eq f w) as (c & lg & El & _).
  rewrite run_eq by done.
  assert (fetch_and_report f (loaded f w) =
          (report (Z.of_nat (length (history (heap (loaded f w)) (user f))))
                  (aggregate (history (heap (loaded f w)) (user f)));;
           mret None) (loaded f w)) as ->.
  { unfold fetch_and_report. rewrite Ht. reflexivity. }
  rewrite run_bind, report_eq. cbv beta iota.
  change ((mret None : M (option error)) ?w) with (Val (@None error), w).
  cbv beta iota. rewrite save_eq. simpl. rewrite Hm.
  destruct (write_error (loaded f w)); eexists;
    (split; [reflexivity |]); rewrite El; simpl; done.
Qed.

(** ** The requests of one call *)

Lemma iteration_next user st w st' w' :
  iteration user st w = (Val (Next st'), w') ->
  v st' = cursor user (v st) w /\ first st' = false.
Proof.
  rewrite iteration_eq. cbv zeta.
  destruct (answer user (v st) w) as [timeline err].
  destruct err as [e|]; [destruct (first st) |]; try done;
    (destruct (_ || _); [done |]);
    destruct (merge _ _ _ _) as [[i|code] w1]; try done;
    by intros [= <- _].
Qed.

Lemma pass_requests_length k user st w st' w' :
  pass k user st w = Some (st', w') ->
  length (requests w') = (length (requests w) + k)%nat.
Proof.
  revert st w. induction k as [|k IH]; intros st w; simpl.
  - intros [= _ ->]. lia.
  - pose proof (iteration_requests user st w) as Er.
    destruct (iteration user st w) as [[[st1| |err]|code] w1]; try done.
    intros Hp. rewrite (IH _ _ Hp). simpl in Er. rewrite Er, length_app.
    simpl. lia.
Qed.

(** Every request that the loop sends is the one built at the start of
    some pass. *)
Lemma loop_requests_pass n user st w j req :
  requests (loop n user st w).2 !! (length (requests w) + j)%nat = Some req ->
  exists st' w',
    pass j user st w = Some (st', w') /\ req = cursor user (v st') w'.
Proof.
  revert st w j. induction n as [|n IH]; intros st w j.
  - simpl. intros Hl. apply lookup_lt_Some in Hl. lia.
  - cbn [loop]. rewrite run_bind.
    pose proof (iteration_requests user st w) as Er.
    destruct j as [|j].
    + intros Hl. exists st, w. split; [done |].
      assert (requests
                (let (r, w'0) := iteration user st w in
                 match r with
                 | Val a =>
                     match a with
                     | Next st0 => loop n user st0
                     | Break => mret None
                     | Return err => mret (Some err)
                     end w'0
                 | Exit code => (Exit code, w'0)
                 end).2 !! (length (requests w) + 0)%nat =
              Some (cursor user (v st) w)) as Hc.
      { destruct (iteration user st w) as [[[st1| |err]|code] w1];
          simpl in *; try (rewrite Er; by apply list_lookup_middle).
        destruct (loop_asks n user st1 w1) as (l & -> & _).
        rewrite Er, <-app_assoc. by apply list_lookup_middle. }
      rewrite Hc in Hl. by injection Hl.
    + cbn [pass].
      destruct (iteration user st w) as [[[st1| |err]|code] w1];
        simpl in *;
        try (intros Hl; apply lookup_lt_Some in Hl;
             rewrite Er, length_app in Hl; simpl in Hl; lia).
      intros Hl. apply IH.
      rewrite Er, length_app. simpl.
      by replace (length (requests w) + 1 + j)%nat
        with (length (requests w) + S j)%nat by lia.
Qed.

Lemma fetchMore_requests_pass user ck cs tok ts w i req :
  requests (fetchMore user ck cs tok ts w).2 !! i = Some req ->
  (length (requests w) <= i)%nat ->
  exists st' w',
    pass (i - length (requests w)) user (init user)
         (connect ck cs tok ts w).2 = Some (st', w') /\
    req = cursor user (v st') w'.
Proof.
  intros Hl Hi.
  destruct ((len tok =? 0)%Z || (len ts =? 0)%Z) eqn:Etok.
  { unfold fetchMore in Hl. rewrite Etok in Hl. simpl in Hl.
    apply lookup_lt_Some in Hl. lia. }
  rewrite fetchMore_eq in Hl by done.
  destruct (connect_spec ck cs tok ts w) as (cons & sess & Ec).
  rewrite Ec in *. cbn [snd] in *. set (w1 := set_sessions _ _) in *.
  assert (requests w1 = requests w) as E1 by done.
  apply (loop_requests_pass 10).
  rewrite E1. replace (length (requests w) + (i - length (requests w)))%nat
    with i by lia.
  destruct (loop 10 user (init user) w1) as [[r|code] w2]; exact Hl.
Qed.

Lemma pass_extends k user st w st' w' :
  pass k user st w = Some (st', w') -> extends user w w'.
Proof.
  revert st w. induction k as [|k IH]; intros st w; simpl.
  - intros [= _ ->]. reflexivity.
  - pose proof (iteration_extends user st w) as He.
    destruct (iteration user st w) as [[[st1| |err]|code] w1]; try done.
    intros Hp. transitivity w1; [exact He | by apply (IH st1)].
Qed.

Lemma pass_base_values k user st w st' w' key :
  pass k user st w = Some (st', w') -> key ≠ "max_id" ->
  v st' !! key = v st !! key.
Proof.
  revert st w. induction k as [|k IH]; intros st w; simpl.
  - by intros [= -> _].
  - destruct (iteration user st w) as [[[st1| |err]|code] w1] eqn:Ei;
      try done.
    intros Hp Hk. rewrite (IH _ _ Hp Hk).
    apply iteration_next in Ei as [-> _]. unfold cursor.
    destruct (last _); [by rewrite lookup_insert_ne | done].
Qed.

(** X6.  Every request of a call of the fetcher carries the same fixed
    parameters: the user as [screen_name], [count] 200, [include_rts] 1,
    [exclude_replies] 0, [trim_user] 1 and [contributor_details] 0; apart
    from these it carries at most [max_id]. *)
Theorem request_parameters user ck cs tok ts w i req :
  requests (fetchMore user ck cs tok ts w).2 !! i = Some req ->
  (length (requests w) <= i)%nat ->
  req !! "screen_name" = Some [user] /\
  req !! "count" = Some ["200"] /\
  req !! "include_rts" = Some ["1"] /\
  req !! "exclude_replies" = Some ["0"] /\
  req !! "trim_user" = Some ["1"] /\
  req !! "contributor_details" = Some ["0"] /\
  forall key, req !! key = base_values user !! key \/ key = "max_id".
Proof.
  intros Hl Hi.
  destruct (fetchMore_requests_pass _ _ _ _ _ _ _ _ Hl Hi)
    as (st' & w' & Hp & ->).
  assert (forall key, key ≠ "max_id" ->
            cursor user (v st') w' !! key = base_values user !! key) as Hb.
  { intros key Hk. unfold cursor.
    destruct (last _); [rewrite lookup_insert_ne by done |];
      apply (pass_base_values _ _ _ _ _ _ _ Hp Hk). }
  repeat split; try (rewrite Hb by done; reflexivity).
  intros key. destruct (decide (key = "max_id")); [by right | left; auto].
Qed.

Lemma merge_first_post user tweet timeline w ids' w' :
  merge user (tweet :: timeline) ∅ w = (Val ids', w') ->
  history (heap w') user ≠ [].
Proof.
  cbn [merge]. rewrite decide_False by apply not_elem_of_empty.
  destruct (CreatedAtTime tweet) as [t|err].
  - rewrite run_bind. simpl. intros Hm.
    pose proof (merge_extends user timeline ({[anaconda.Id tweet]} ∪ ∅)
      (set_heap
         (mkCache
            (<[user := history (heap w) user ++
                       [mkTweet t (anaconda.Id tweet)
                          (anaconda.Name (anaconda.Place_ tweet))]]>
               (Users (heap w)))) w)) as [_ [l Hl]].
    rewrite Hm in Hl. simpl in Hl.
    rewrite history_append, decide_True in Hl by done.
    rewrite Hl. intros E. apply app_nil in E as [E _].
    by apply app_nil in E as [_ ?].
  - unfold log_Fatalf. by rewrite run_bind.
Qed.

Lemma pass_history_nonempty k user w st' w' :
  pass (S k) user (init user) w = Some (st', w') ->
  history (heap w') user ≠ [].
Proof.
  cbn [pass]. rewrite iteration_eq. cbv zeta. cbn [init v first ids].
  destruct (answer user (base_values user) w) as [timeline err].
  assert (forall w1, history (heap w1) user ≠ [] -> forall st1,
            pass k user st1 w1 = Some (st', w') ->
            history (heap w') user ≠ []) as Hrest.
  { intros w1 Hne st1 Hp. apply pass_extends in Hp as [_ [l Hl]].
    rewrite Hl. intros E. by apply app_nil in E as [? _]. }
  destruct err as [e|]; [done |].
  destruct timeline as [|tweet timeline]; [done |].
  rewrite (bool_decide_eq_false_2 (tweet :: timeline = [])) by done.
  rewrite (bool_decide_eq_false_2 (is_Some None)) by (by intros [? ?]).
  cbn [orb].
  destruct (merge user (tweet :: timeline) ∅
              (asked user (base_values user) w)) as [[i|code] w1] eqn:Em;
    [| done].
  apply Hrest. by apply merge_first_post in Em.
Qed.

(** X7.  Only the first request of a call can go without a cursor: every
    later request of the call carries [max_id], taken from the last post
    of the history as it then stands. *)
Theorem later_requests_have_cursor user ck cs tok ts w i req :
  requests (fetchMore user ck cs tok ts w).2 !! i = Some req ->
  (length (requests w) < i)%nat ->
  exists st' w' t,
    pass (i - length (requests w)) user (init user)
         (connect ck cs tok ts w).2 = Some (st', w') /\
    last (history (heap w') user) = Some t /\
    req !! "max_id" = Some [FormatInt (Int64.sub (Id t) 1)].
Proof.
  intros Hl Hi.
  destruct (fetchMore_requests_pass _ _ _ _ _ _ _ _ Hl) as
    (st' & w' & Hp & ->); [lia |].
  destruct (i - length (requests w))%nat as [|k] eqn:Ek; [lia |].
  pose proof (pass_history_nonempty _ _ _ _ _ Hp) as Hne.
  destruct (last (history (heap w') user)) as [t|] eqn:El.
  - exists st', w', t. split; [done |]. split; [done |].
    unfold cursor. rewrite El. apply lookup_insert_eq.
  - by apply last_None in El.
Qed.

(** X8.  When each of the ten passes has merged a page, the fetcher stops
    there: it returns without an error, having sent exactly ten requests,
    and the cache is as the tenth pass left it. *)
Theorem ceiling_reached user ck cs tok ts w st w1 :
  tok ≠ "" -> ts ≠ "" ->
  pass 10 user (init user) (connect ck cs tok ts w).2 = Some (st, w1) ->
  exists w',
    fetchMore user ck cs tok ts w = (Val None, w') /\
    heap w' = heap w1 /\
    requests w' = requests w1 /\
    length (requests w') = (length (requests w) + 10)%nat.
Proof.
  intros Ht Hs Hp.
  rewrite fetchMore_eq
    by (by rewrite (len_nonempty _ Ht), (len_nonempty _ Hs)).
  change 10%nat with (10 + 0)%nat at 1.
  rewrite (loop_pass _ _ _ _ _ _ _ Hp). simpl.
  eexists. split; [reflexivity |]. simpl. repeat split.
  rewrite (pass_requests_length _ _ _ _ _ _ Hp).
  destruct (connect_spec ck cs tok ts w) as (cons & sess & ->). done.
Qed.

(** ** Where cached posts come from *)

Lemma built_from_heap user old P w w' :
  heap w' = heap w -> built_from user old P w -> built_from user old P w'.
Proof. intros E. unfold built_from. by rewrite E. Qed.

Lemma merge_built user old P timeline ids w :
  (forall tw t, tw ∈ timeline -> record_of tw t -> P t) ->
  built_from user old P w ->
  built_from user old P (merge user timeline ids w).2.
Proof.
  revert ids w. induction timeline as [|tweet timeline IH]; intros ids w HP;
    simpl; [done |].
  assert (forall tw t, tw ∈ timeline -> record_of tw t -> P t) as HP'.
  { intros tw t Htw. apply HP. by right. }
  case_decide; [by apply IH |].
  intros Hb. destruct (CreatedAtTime tweet) as [t|err] eqn:Et.
  - rewrite run_bind. simpl. apply IH; [done |].
    destruct Hb as (added & Hh & Hall). eexists (added ++ [_]). simpl.
    rewrite history_append, decide_True by done.
    split; [by rewrite Hh, app_assoc |].
    apply Forall_app. split; [done |]. apply Forall_singleton.
    apply (HP tweet); [by left |]. by split.
  - unfold log_Fatalf. rewrite run_bind. simpl.
    apply (built_from_heap user old P w); [apply logged_heap | done].
Qed.

Lemma iteration_built user old P st w :
  (forall tw t, tw ∈ (answer user (v st) w).1 -> record_of tw t -> P t) ->
  built_from user old P w ->
  built_from user old P (iteration user st w).2.
Proof.
  intros HP Hb. rewrite iteration_eq. cbv zeta.
  assert (built_from user old P (asked user (v st) w)) as Hasked.
  { apply (built_from_heap user old P w); [apply asked_heap | done]. }
  destruct (answer user (v st) w) as [timeline err]. simpl in HP.
  assert (built_from user old P
    (if bool_decide (timeline = []) || bool_decide (is_Some err)
     then (Val Break, asked user (v st) w)
     else
       match merge user timeline (ids st) (asked user (v st) w) with
       | (Val ids, w'') =>
           (Val (Next (mkLocals (cursor user (v st) w) false ids)), w'')
       | (Exit code, w'') => (Exit code, w'')
       end).2) as Hrest.
  { destruct (_ || _); [done |].
    pose proof (merge_built user old P timeline (ids st)
                  (asked user (v st) w) HP Hasked) as Hm.
    by destruct (merge _ _ _ _) as [[i|code] w1]. }
  destruct err as [e|]; [destruct (first st) |]; try exact Hrest.
  exact Hasked.
Qed.

Lemma loop_built n user old P st w :
  (forall i req tw t,
     requests (loop n user st w).2 !! i = Some req ->
     (length (requests w) <= i)%nat ->
     tw ∈ (twitter w i req).1 -> record_of tw t -> P t) ->
  built_from user old P w ->
  built_from user old P (loop n user st w).2.
Proof.
  revert st w. induction n as [|n IH]; intros st w; simpl; [done |].
  rewrite run_bind. intros HP Hb.
  pose proof (iteration_requests user st w) as Hreq.
  pose proof (iteration_blind twitter twitter_blind user st w) as Htw.
  pose proof (iteration_built user old P st w) as Hit.
  unfold same in Htw.
  destruct (iteration user st w) as [[c|code] w1] eqn:Eit; simpl in *.
  - assert (exists l,
              requests
                (match c with
                 | Next st0 => loop n user st0
                 | Break => mret None
                 | Return err => mret (Some err)
                 end w1).2 = requests w ++ [cursor user (v st) w] ++ l)
      as [l Hl].
    { destruct c as [st'| |e]; simpl.
      - destruct (loop_asks n user st' w1) as (l & -> & _).
        exists l. by rewrite Hreq, <-app_assoc.
      - exists []. by rewrite Hreq.
      - exists []. by rewrite Hreq. }
    assert (built_from user old P w1) as Hb1.
    { apply Hit; [| done]. intros tw t Hin.
      apply (HP (length (requests w)) (cursor user (v st) w)); [| lia | done].
      rewrite Hl. by apply list_lookup_middle. }
    destruct c as [st'| |e]; simpl in *; try done.
    apply IH; [| done].
    intros i req tw t Hi Hle. rewrite Htw. apply HP; [done |].
    rewrite Hreq in Hle. rewrite length_app in Hle. lia.
  - apply Hit; [| done]. intros tw t Hin.
    apply (HP (length (requests w)) (cursor user (v st) w)); [| lia | done].
    rewrite Hreq. by apply list_lookup_middle.
Qed.

(** X9.  The fetcher invents nothing: after a call, however it ends, the
    history of the user is the history of before followed by posts each of
    which records a tweet that the service returned in answer to a request
    of this call (same id, same place name, and the tweet's timestamp as
    parsed). *)
Theorem appended_posts_were_served user ck cs tok ts w :
  exists added,
    history (heap (fetchMore user ck cs tok ts w).2) user =
      history (heap w) user ++ added /\
    forall t, t ∈ added ->
      exists i req tw,
        requests (fetchMore user ck cs tok ts w).2 !! i = Some req /\
        (length (requests w) <= i)%nat /\
        tw ∈ (twitter w i req).1 /\
        record_of tw t.
Proof.
  set (P := fun t =>
    exists i req tw,
      requests (fetchMore user ck cs tok ts w).2 !! i = Some req /\
      (length (requests w) <= i)%nat /\
      tw ∈ (twitter w i req).1 /\ record_of tw t).
  assert (built_from user (history (heap w) user) P
            (fetchMore user ck cs tok ts w).2) as (added & Hh & Hall).
  2:{ exists added. split; [done |]. intros t Ht.
      by apply (proj1 (Forall_forall _ _) Hall). }
  subst P.
  destruct ((len tok =? 0)%Z || (len ts =? 0)%Z) eqn:Etok.
  { unfold fetchMore. rewrite Etok. exists []. by rewrite app_nil_r. }
  rewrite fetchMore_eq by done.
  destruct (connect_spec ck cs tok ts w) as (cons & sess & Ec).
  rewrite Ec. cbn [snd]. set (w1 := set_sessions _ _).
  pose proof (loop_built 10 user (history (heap w) user)
    (fun t =>
       exists i req tw,
         requests (loop 10 user (init user) w1).2 !! i = Some req /\
         (length (requests w) <= i)%nat /\
         tw ∈ (twitter w i req).1 /\ record_of tw t)
    (init user) w1) as Hl.
  destruct (loop 10 user (init user) w1) as [[r|code] w2];
    cbn [fst snd] in *; apply Hl.
  all: try (exists []; by rewrite app_nil_r).
  all: intros i req tw t Hi Hle Htw Hr; by exists i, req, tw.
Qed.

Lemma merge_seen user timeline ids w ids' w' :
  merge user timeline ids w = (Val ids', w') ->
  seen_cached user ids w ->
  seen_cached user ids' w' /\
  ids ⊆ ids' /\
  forall tw, tw ∈ timeline -> anaconda.Id tw ∈ ids'.
Proof.
  revert ids w. induction timeline as [|tweet timeline IH]; intros ids w;
    simpl.
  - intros [= <- <-] Hs. split; [done |]. split; [done |].
    intros tw Htw. by apply elem_of_nil in Htw.
  - case_decide as Hseen.
    + intros Hm Hs. destruct (IH _ _ Hm Hs) as (Hs' & Hsub & Hall).
      split; [done |]. split; [done |].
      intros tw Htw. apply elem_of_cons in Htw as [-> | Htw]; [| by apply Hall].
      by apply Hsub.
    + destruct (CreatedAtTime tweet) as [t|err].
      * rewrite run_bind. simpl. intros Hm Hs.
        destruct (IH _ _ Hm) as (Hs' & Hsub & Hall).
        { intros x Hx. simpl.
          rewrite history_append, decide_True, fmap_app by done.
          apply elem_of_app.
          apply elem_of_union in Hx as [Hx | Hx].
          - right. apply elem_of_singleton in Hx. subst x. simpl. by left.
          - left. by apply Hs. }
        split; [done |].
        split; [intros x Hx; apply Hsub, elem_of_union; by right |].
        intros tw Htw.
        apply elem_of_cons in Htw as [-> | Htw]; [| by apply Hall].
        apply Hsub, elem_of_union. left. by apply elem_of_singleton.
      * unfold log_Fatalf. by rewrite run_bind.
Qed.

Lemma iteration_next_merge user st w st' w' :
  iteration user st w = (Val (Next st'), w') ->
  merge user (answer user (v st) w).1 (ids st) (asked user (v st) w) =
    (Val (ids st'), w').
Proof.
  rewrite iteration_eq. cbv zeta.
  destruct (answer user (v st) w) as [timeline err].
  destruct err as [e|]; [destruct (first st) |]; try done;
    (destruct (_ || _); [done |]); simpl;
    destruct (merge _ _ _ _) as [[i|code] w1]; try done;
    by intros [= <- <-].
Qed.

Lemma pass_seen k user st w st' w' :
  pass k user st w = Some (st', w') ->
  seen_cached user (ids st) w ->
  seen_cached user (ids st') w' /\
  ids st ⊆ ids st' /\
  forall i req tw,
    requests w' !! i = Some req ->
    (length (requests w) <= i)%nat ->
    tw ∈ (twitter w i req).1 -> anaconda.Id tw ∈ ids st'.
Proof.
  revert st w. induction k as [|k IH]; intros st w; simpl.
  - intros [= <- <-] Hs. split; [done |]. split; [done |].
    intros i req tw Hi Hle. apply lookup_lt_Some in Hi. lia.
  - pose proof (iteration_requests user st w) as Er.
    pose proof (iteration_blind twitter twitter_blind user st w) as Etw.
    unfold same in Etw.
    destruct (iteration user st w) as [[[st1| |err]|code] w1] eqn:Ei;
      try done.
    simpl in Er, Etw. intros Hp Hs.
    apply iteration_next_merge in Ei.
    destruct (merge_seen _ _ _ _ _ _ Ei) as (Hs1 & Hsub1 & Hall1).
    { intros x Hx. rewrite asked_heap. by apply Hs. }
    destruct (IH _ _ Hp Hs1) as (Hs' & Hsub' & Hall').
    split; [done |]. split; [by transitivity (ids st1) |].
    intros i req tw Hi Hle Htw.
    destruct (decide (i = length (requests w))) as [-> | Hne].
    + apply Hsub', Hall1.
      assert (requests w' !! length (requests w) =
              Some (cursor user (v st) w)) as Hc.
      { assert (exists l, requests w' = requests w1 ++ l) as [l ->].
        { clear -Hp. revert st1 w1 Hp.
          induction k as [|k IHk]; intros st1 w1; simpl.
          - intros [= _ ->]. exists []. by rewrite app_nil_r.
          - pose proof (iteration_requests user st1 w1) as Er.
            destruct (iteration user st1 w1) as [[[st2| |err]|code] w2];
              try done.
            intros Hp. destruct (IHk _ _ Hp) as [l ->]. simpl in Er.
            rewrite Er, <-app_assoc. by eexists. }
        rewrite Er, <-app_assoc. by apply list_lookup_middle. }
      rewrite Hc in Hi. injection Hi as <-. exact Htw.
    + apply (Hall' i req); [done | | by rewrite Etw].
      rewrite Er, length_app. simpl. lia.
Qed.

(** X10.  No post of a merged page is dropped: once the loop has merged
    [k] pages, the id of every tweet that the service returned in answer
    to those [k] requests is the id of a cached post of the user. *)
Theorem merged_pages_are_recorded user k w0 st w1 i req tw :
  pass k user (init user) w0 = Some (st, w1) ->
  requests w1 !! i = Some req ->
  (length (requests w0) <= i)%nat ->
  tw ∈ (twitter w0 i req).1 ->
  anaconda.Id tw ∈ Id <$> history (heap w1) user.
Proof.
  intros Hp Hi Hle Htw.
  destruct (pass_seen _ _ _ _ _ _ Hp) as (Hs & _ & Hall).
  { intros x Hx. by apply not_elem_of_empty in Hx. }
  apply Hs. by apply (Hall i req).
Qed.

(** ** What the aggregator counts *)

Lemma Int64_add_1 n : Int64.min <= n < Int64.max -> Int64.add n 1 = n + 1.
Proof.
  unfold Int64.add, Int64.wrap, Int64.min, Int64.max. intros Hn.
  rewrite Z.mod_small; lia.
Qed.

Lemma aggregate_snoc h t : aggregate (h ++ [t]) = tally (aggregate h) t.
Proof. unfold aggregate. by rewrite foldl_app. Qed.

Lemma tally_hours s t :
  hours (tally s t) = incr (Hour (CreatedAt t)) (hours s).
Proof.
  unfold tally. destruct (len (Place t) =? 0)%Z; [done |].
  by destruct (placesMap s !! Place t).
Qed.

Lemma tally_weekdays s t :
  weekdays (tally s t) = incr (Weekday (CreatedAt t)) (weekdays s).
Proof.
  unfold tally. destruct (len (Place t) =? 0)%Z; [done |].
  by destruct (placesMap s !! Place t).
Qed.

Lemma count_snoc {A} (P : A -> Prop) `{!forall x, Decision (P x)} l x :
  Z.of_nat (length (filter P (l ++ [x]))) =
  Z.of_nat (length (filter P l)) + (if decide (P x) then 1 else 0).
Proof.
  rewrite filter_app, length_app.
  rewrite (filter_cons P x []). 
  destruct (decide (P x)); simpl; lia.
Qed.

Lemma count_le {A} (P : A -> Prop) `{!forall x, Decision (P x)} l :
  Z.of_nat (length (filter P l)) <= Z.of_nat (length l).
Proof. apply inj_le, length_filter. Qed.

(** The counters of an array of [size] slots that is bumped at [key t]
    for each post. *)
Lemma incr_counts (key : Tweet -> Z) (size : nat) (h : list Tweet) :
  (forall t, 0 <= key t < Z.of_nat size) ->
  Z.of_nat (length h) <= Int64.max ->
  forall i, 0 <= i < Z.of_nat size ->
    foldl (fun a t => incr (key t) a) (replicate size 0) h !! Z.to_nat i =
    Some (Z.of_nat (length (filter (fun t => key t = i) h))).
Proof.
  intros Hkey. induction h as [|t h IH] using rev_ind; intros Hlen i Hi.
  - simpl. apply lookup_replicate. split; [done | lia].
  - rewrite length_app in Hlen. simpl in Hlen.
    rewrite foldl_app. simpl. unfold incr at 1.
    rewrite count_snoc.
    destruct (decide (key t = i)) as [<- | Hne].
    + rewrite list_lookup_alter_eq, IH by (done || lia). simpl. f_equal.
      apply Int64_add_1.
      pose proof (count_le (fun t0 => key t0 = key t) h).
      unfold Int64.min, Int64.max in *. lia.
    + assert (Z.to_nat (key t) ≠ Z.to_nat i)
        by (specialize (Hkey t); lia).
      rewrite list_lookup_alter_ne by done. rewrite IH by (done || lia).
      f_equal. lia.
Qed.

Lemma aggregate_hours h :
  hours (aggregate h) =
  foldl (fun a t => incr (Hour (CreatedAt t)) a) (replicate 24 0) h.
Proof.
  induction h as [|t h IH] using rev_ind; [done |].
  by rewrite aggregate_snoc, tally_hours, IH, foldl_app.
Qed.

Lemma aggregate_weekdays h :
  weekdays (aggregate h) =
  foldl (fun a t => incr (Weekday (CreatedAt t)) a) (replicate 7 0) h.
Proof.
  induction h as [|t h IH] using rev_ind; [done |].
  by rewrite aggregate_snoc, tally_weekdays, IH, foldl_app.
Qed.

(** X11.  For a history of at most 2^63 - 1 posts, the aggregation has 24
    hour counters and 7 weekday counters; the counter of hour [i] is the
    number of posts whose timestamp falls in hour [i], and the counter of
    weekday [d] is the number of posts whose timestamp falls on weekday
    [d]. *)
Theorem aggregate_counts h :
  Z.of_nat (length h) <= Int64.max ->
  length (hours (aggregate h)) = 24%nat /\
  length (weekdays (aggregate h)) = 7%nat /\
  (forall i, 0 <= i < 24 ->
     hours (aggregate h) !! Z.to_nat i = Some (in_hour i h)) /\
  (forall d, 0 <= d < 7 ->
     weekdays (aggregate h) !! Z.to_nat d = Some (on_weekday d h)).
Proof.
  intros Hlen.
  assert (forall i, 0 <= i < 24 ->
            hours (aggregate h) !! Z.to_nat i = Some (in_hour i h)) as Hh.
  { intros i Hi. rewrite aggregate_hours.
    apply (incr_counts (fun t => Hour (CreatedAt t)) 24); try done.
    intros t. pose proof (Hour_range (CreatedAt t)). lia. }
  assert (forall d, 0 <= d < 7 ->
            weekdays (aggregate h) !! Z.to_nat d = Some (on_weekday d h))
    as Hd.
  { intros d Hd. rewrite aggregate_weekdays.
    apply (incr_counts (fun t => Weekday (CreatedAt t)) 7); try done.
    intros t. pose proof (Weekday_range (CreatedAt t)). lia. }
  repeat split; try done.
  - rewrite aggregate_hours. clear.
    induction h as [|t h IH] using rev_ind; [done |].
    rewrite foldl_app. simpl. unfold incr. by rewrite length_alter.
  - rewrite aggregate_weekdays. clear.
    induction h as [|t h IH] using rev_ind; [done |].
    rewrite foldl_app. simpl. unfold incr. by rewrite length_alter.
Qed.

Lemma len_zero s : (len s =? 0)%Z = true <-> s = "".
Proof.
  split; [| by intros ->].
  destruct s; [done |]. unfold len. simpl. lia.
Qed.

Lemma tally_places s t :
  (placesMap (tally s t), places (tally s t), placesLen (tally s t)) =
  if decide (Place t = "") then (placesMap s, places s, placesLen s)
  else
    match placesMap s !! Place t with
    | Some n =>
        (<[Place t := Int64.add n 1]> (placesMap s), places s, placesLen s)
    | None =>
        (<[Place t := Int64.add 0 1]> (placesMap s),
         places s ++ [Place t],
         Z.max (RuneCountInString (Place t)) (placesLen s))
    end.
Proof.
  unfold tally. destruct (len (Place t) =? 0)%Z eqn:El.
  - apply len_zero in El. by rewrite decide_True.
  - rewrite decide_False by (intros E; apply len_zero in E; congruence).
    destruct (placesMap s !! Place t) as [n|] eqn:Ep; simpl.
    + by rewrite Ep.
    + rewrite lookup_insert_eq, insert_insert_eq. simpl. do 2 f_equal.
      destruct (Z.gtb_spec (RuneCountInString (Place t)) (placesLen s)); lia.
Qed.

Lemma at_place_snoc p h t :
  at_place p (h ++ [t]) =
  at_place p h + (if decide (Place t = p) then 1 else 0).
Proof.
  unfold at_place. rewrite filter_app, length_app, filter_cons, filter_nil.
  destruct (decide (Place t = p)); simpl; lia.
Qed.

Lemma at_place_pos p h : 0 < at_place p h <-> exists t, t ∈ h /\ Place t = p.
Proof.
  unfold at_place. split.
  - intros Hpos. destruct (filter (fun t => Place t = p) h) as [|t l] eqn:E;
      [simpl in Hpos; lia |].
    assert (t ∈ filter (fun t => Place t = p) h) as Ht
      by (rewrite E; by left).
    apply list_elem_of_filter in Ht as [? ?]. by exists t.
  - intros (t & Hin & Hp).
    assert (t ∈ filter (fun t => Place t = p) h) as Ht
      by (by apply list_elem_of_filter).
    destruct (filter _ h); [by apply elem_of_nil in Ht | simpl; lia].
Qed.

(** X12.  For a history of at most 2^63 - 1 posts, the place counts of
    the aggregation map each place label to the number of posts that carry
    it, and hold no entry for the empty label nor for a label that no post
    carries. *)
Theorem aggregate_place_counts h :
  Z.of_nat (length h) <= Int64.max ->
  forall p,
    placesMap (aggregate h) !! p =
    if decide (p = "" \/ at_place p h = 0) then None
    else Some (at_place p h).
Proof.
  induction h as [|t h IH] using rev_ind; intros Hlen p.
  - simpl. rewrite decide_True by (by right). apply lookup_empty.
  - rewrite length_app in Hlen. simpl in Hlen.
    assert (Z.of_nat (length h) <= Int64.max) as Hlen' by lia.
    specialize (IH Hlen').
    pose proof (tally_places (aggregate h) t) as Et.
    rewrite <-aggregate_snoc in Et.
    rewrite at_place_snoc.
    assert (0 <= at_place p h <= Z.of_nat (length h)) as Hc.
    { unfold at_place. split; [lia |].
      apply (count_le (fun t => Place t = p)). }
    destruct (decide (Place t = "")) as [Ee | Hne].
    + injection Et as -> _ _. rewrite IH.
      destruct (decide (Place t = p)) as [Ep | Hp].
      * rewrite !decide_True; [done | left; congruence | left; congruence].
      * rewrite Z.add_0_r. done.
    + rewrite (IH (Place t)) in Et.
      assert (0 <= at_place (Place t) h <= Z.of_nat (length h)) as Hq.
      { unfold at_place. split; [lia |].
        apply (count_le (fun t0 => Place t0 = Place t)). }
      destruct (decide (Place t = p)) as [<- | Hp].
      * destruct (decide (Place t = "" \/ at_place (Place t) h = 0))
          as [[? | E0] | Hn0]; [done | |].
        -- injection Et as -> _ _. rewrite lookup_insert_eq, E0.
           rewrite decide_False by (intros [? | ?]; [done | lia]).
           done.
        -- injection Et as -> _ _. rewrite lookup_insert_eq.
           rewrite decide_False by (intros [? | ?]; [done | lia]).
           f_equal. apply Int64_add_1.
           unfold Int64.min, Int64.max in *. lia.
      * rewrite Z.add_0_r.
        destruct (decide (Place t = "" \/ at_place (Place t) h = 0));
          injection Et as -> _ _; rewrite lookup_insert_ne by done;
          apply IH.
Qed.

Lemma aggregate_places_inv h :
  NoDup (places (aggregate h)) /\
  (forall p, p ∈ places (aggregate h) <->
             is_Some (placesMap (aggregate h) !! p)) /\
  (forall p, p ∈ places (aggregate h) <->
             p ≠ "" /\ exists t, t ∈ h /\ Place t = p) /\
  (forall p, p ∈ places (aggregate h) ->
             RuneCountInString p <= placesLen (aggregate h)) /\
  (placesLen (aggregate h) = 0 \/
   exists p, p ∈ places (aggregate h) /\
             placesLen (aggregate h) = RuneCountInString p).
Proof.
  induction h as [|t h (Hnd & Hmap & Hin & Hle & Hmax)] using rev_ind.
  - simpl. split; [constructor |]. split.
    + intros p. rewrite lookup_empty. split; [by intros ?%elem_of_nil |].
      by intros [? ?].
    + split; [| split; [by intros p ?%elem_of_nil | by left]].
      intros p. split; [by intros ?%elem_of_nil |].
      by intros (_ & t & ?%elem_of_nil & _).
  - pose proof (tally_places (aggregate h) t) as Et.
    rewrite <-aggregate_snoc in Et.
    assert (forall p, (exists t0, t0 ∈ h ++ [t] /\ Place t0 = p) <->
                      (exists t0, t0 ∈ h /\ Place t0 = p) \/ Place t = p)
      as Hsnoc.
    { intros p. split.
      - intros (t0 & [Hh | Ht]%elem_of_app & Hp); [left; by exists t0 |].
        apply list_elem_of_singleton in Ht. subst t0. by right.
      - intros [(t0 & Hh & Hp) | Hp].
        + exists t0. split; [apply elem_of_app; by left | done].
        + exists t. split; [apply elem_of_app; right; by left | done]. }
    destruct (decide (Place t = "")) as [Ee | Hne].
    { injection Et as -> -> ->. split; [done |]. split; [done |].
      split; [| by split].
      intros p. rewrite Hin, Hsnoc. split; [intros [? ?]; by auto |].
      intros [Hp [? | E]]; [done |]. congruence. }
    destruct (placesMap (aggregate h) !! Place t) as [n|] eqn:Ep.
    + injection Et as -> -> ->.
      assert (Place t ∈ places (aggregate h)) as Hpt
        by (apply Hmap; by rewrite Ep).
      split; [done |]. split.
      { intros p. rewrite Hmap. destruct (decide (Place t = p)) as [<- | Hp].
        - rewrite lookup_insert_eq, Ep. by split.
        - by rewrite lookup_insert_ne. }
      split; [| by split].
      intros p. rewrite Hsnoc. split.
      * intros Hp. apply Hin in Hp as [? ?]. by auto.
      * intros [Hp [Hex | <-]]; [by apply Hin | done].
    + injection Et as -> -> ->.
      assert (Place t ∉ places (aggregate h)) as Hpt.
      { intros Hp. apply Hmap in Hp as [? Hp]. congruence. }
      split.
      { apply NoDup_app. split; [done |]. split; [| apply NoDup_singleton].
        intros p Hp Hp'. apply list_elem_of_singleton in Hp'. by subst p. }
      split.
      { intros p. rewrite elem_of_app, list_elem_of_singleton, Hmap.
        destruct (decide (Place t = p)) as [<- | Hp].
        - rewrite lookup_insert_eq. split; [by eexists | by right].
        - rewrite lookup_insert_ne by done.
          split; [by intros [? | ?] | by left]. }
      split.
      { intros p. rewrite elem_of_app, list_elem_of_singleton, Hsnoc, Hin.
        split.
        - intros [[? ?] | ->]; by auto.
        - intros [Hp [Hex | <-]]; by auto. }
      split.
      { intros p [Hp | Hp]%elem_of_app.
        - specialize (Hle p Hp). lia.
        - apply list_elem_of_singleton in Hp. subst p. lia. }
      destruct (Z.max_spec (RuneCountInString (Place t))
                  (placesLen (aggregate h))) as [[_ ->] | [_ ->]].
      * destruct Hmax as [? | (p & Hp & ?)]; [by left |].
        right. exists p. split; [apply elem_of_app; by left | done].
      * right. exists (Place t).
        split; [apply elem_of_app; right; by left | done].
Qed.

(** X13.  The width that the aggregation computes for the place column is
    the largest rune count among the place labels it lists (0 when it lists
    none): no listed label is wider, and the width is attained. *)
Theorem aggregate_placesLen h :
  (forall p, p ∈ places (aggregate h) ->
     RuneCountInString p <= placesLen (aggregate h)) /\
  (placesLen (aggregate h) = 0 \/
   exists p, p ∈ places (aggregate h) /\
             placesLen (aggregate h) = RuneCountInString p).
Proof. by destruct (aggregate_places_inv h) as (_ & _ & _ & ? & ?). Qed.

Lemma insert_sorted_perm a l : insert_sorted a l ≡ₚ a :: l.
Proof.
  induction l as [|x l IH]; simpl; [done |].
  destruct (String.leb a x); [done |]. by rewrite IH, Permutation_swap.
Qed.

Lemma insert_sorted_sorted a l :
  Sorted ascending l -> Sorted ascending (insert_sorted a l).
Proof.
  induction l as [|x l IH]; simpl; intros Hs.
  - by repeat constructor.
  - destruct (String.leb a x) eqn:E.
    + constructor; [done |]. by constructor.
    + apply Sorted_inv in Hs as [Hs Hhd]. constructor; [by apply IH |].
      assert (ascending x a) as Hxa.
      { destruct (String.leb_total a x) as [? | ?]; [congruence | done]. }
      destruct l as [|y l]; simpl; [by constructor |].
      destruct (String.leb a y); constructor; [done |].
      by apply HdRel_inv in Hhd.
Qed.

Lemma sort_Strings_perm l : sort_Strings l ≡ₚ l.
Proof.
  induction l as [|a l IH]; simpl; [done |].
  by rewrite insert_sorted_perm, IH.
Qed.

Lemma sort_Strings_sorted l : Sorted ascending (sort_Strings l).
Proof.
  induction l as [|a l IH]; simpl; [constructor |].
  by apply insert_sorted_sorted.
Qed.

(** X14.  The places that the report lists are the labels carried by the
    posts of the history, the empty label left out, each label once and in
    ascending byte-wise order; each of them has an entry in the place
    counts. *)
Theorem report_places h :
  let listed := sort_Strings (places (aggregate h)) in
  Sorted ascending listed /\
  NoDup listed /\
  (forall p, p ∈ listed <-> p ≠ "" /\ exists t, t ∈ h /\ Place t = p) /\
  (forall p, p ∈ listed <-> is_Some (placesMap (aggregate h) !! p)).
Proof.
  intros listed. subst listed.
  destruct (aggregate_places_inv h) as (Hnd & Hmap & Hin & _).
  pose proof (sort_Strings_perm (places (aggregate h))) as Hp.
  split; [apply sort_Strings_sorted |].
  split; [by rewrite Hp |].
  split; intros p; by rewrite Hp.
Qed.

(** ** Exit status *)

Lemma exits_one_bind {A B} (m : M A) (k : A -> M B) :
  exits_one m -> (forall a, exits_one (k a)) -> exits_one (m ≫= k).
Proof.
  intros Hm Hk w code w'. rewrite run_bind.
  destruct (m w) as [[a|c] w1] eqn:E.
  - apply Hk.
  - intros [= <- _]. by apply (Hm w c w1).
Qed.

Lemma exits_one_val {A} (m : M A) :
  (forall w, exists a w', m w = (Val a, w')) -> exits_one m.
Proof. intros Hm w code w' E. destruct (Hm w) as (a & w1 & E'). congruence. Qed.

Lemma exits_one_Fatalf {A} f a : exits_one (log_Fatalf (A := A) f a).
Proof. intros w code w'. unfold log_Fatalf. rewrite run_bind. by intros [= <- _]. Qed.

Lemma exits_one_merge user timeline ids : exits_one (merge user timeline ids).
Proof.
  revert ids. induction timeline as [|tweet timeline IH]; intros ids; simpl.
  - apply exits_one_val. by eexists _, _.
  - case_decide; [apply IH |].
    destruct (CreatedAtTime tweet) as [t|err]; [| apply exits_one_Fatalf].
    apply exits_one_bind; [| intros _; apply IH].
    apply exits_one_val. by eexists _, _.
Qed.

Lemma exits_one_iteration user st : exits_one (iteration user st).
Proof.
  intros w code w'. rewrite iteration_eq. cbv zeta.
  destruct (answer user (v st) w) as [timeline err].
  pose proof (exits_one_merge user timeline (ids st) (asked user (v st) w))
    as Hm.
  destruct err as [e|]; [destruct (first st) |]; try done;
    (destruct (_ || _); [done |]);
    destruct (merge _ _ _ _) as [[i|c] w1]; try done;
    intros [= <- _]; by eapply Hm.
Qed.

Lemma exits_one_loop n user st : exits_one (loop n user st).
Proof.
  revert st. induction n as [|n IH]; intros st; simpl.
  - apply exits_one_val. by eexists _, _.
  - apply exits_one_bind; [apply exits_one_iteration |].
    intros [st'| |err]; [apply IH | |]; apply exits_one_val; by eexists _, _.
Qed.

Lemma exits_one_fetchMore user ck cs tok ts :
  exits_one (fetchMore user ck cs tok ts).
Proof.
  intros w code w'.
  destruct ((len tok =? 0)%Z || (len ts =? 0)%Z) eqn:Etok.
  { unfold fetchMore. by rewrite Etok. }
  rewrite fetchMore_eq by done.
  pose proof (exits_one_loop 10 user (init user) (connect ck cs tok ts w).2)
    as Hl.
  destruct (loop 10 user (init user) _) as [[r|c] w1]; [done |].
  intros [= <- _]. by eapply Hl.
Qed.

Lemma fetch_and_report_none f w w1 :
  fetch_and_report f w = (Val None, w1) ->
  written w1 = written w /\
  stdout w1 =
    stdout w ++
    report_lines (Z.of_nat (length (history (heap w1) (user f))))
                 (aggregate (history (heap w1) (user f))).
Proof.
  unfold fetch_and_report. rewrite run_bind.
  assert (forall w0 : world,
            (c ← gets heap;
             report (Z.of_nat (length (history c (user f))))
                    (aggregate (history c (user f)));; mret None) w0 =
            (Val (@None error),
             set_stdout
               (stdout w0 ++
                report_lines (Z.of_nat (length (history (heap w0) (user f))))
                             (aggregate (history (heap w0) (user f)))) w0))
    as Hrep.
  { intros w0. rewrite run_bind. simpl. by rewrite run_bind, report_eq. }
  destruct (negb (len (token f) =? 0)%Z).
  - pose proof (fetchMore_blind written written_blind (user f)
                  (consumerKey f) (consumerSecret f) (token f)
                  (tokenSecret f) w) as Ew.
    pose proof (fetchMore_blind stdout stdout_blind (user f)
                  (consumerKey f) (consumerSecret f) (token f)
                  (tokenSecret f) w) as Eo.
    unfold same in Ew, Eo.
    destruct (fetchMore _ _ _ _ _ w) as [[[err|]|code] w0]; try done.
    rewrite Hrep. simpl in *. intros [= <-]. simpl. by rewrite Ew, Eo.
  - change ((mret None : M (option error)) w) with (Val (@None error), w).
    cbv beta iota. rewrite Hrep. by intros [= <-].
Qed.

Lemma files_blind : fetch_blind files.
Proof. repeat split. Qed.

Lemma fetchMore_exit_session user ck cs tok ts w code w1 :
  fetchMore user ck cs tok ts w = (Exit code, w1) ->
  sessions w1 = (tok, ts) :: sessions w.
Proof.
  destruct ((len tok =? 0)%Z || (len ts =? 0)%Z) eqn:Etok.
  { unfold fetchMore. rewrite Etok. done. }
  rewrite fetchMore_eq by done.
  pose proof (loop_loop_blind sessions sessions_loop_blind 10 user
                (init user) (connect ck cs tok ts w).2) as El.
  assert (sessions (connect ck cs tok ts w).2 = (tok, ts) :: sessions w)
    as Ec.
  { unfold connect. rewrite !run_bind.
    by destruct (negb (len ck =? 0)%Z), (negb (len cs =? 0)%Z). }
  destruct (loop 10 user (init user) _) as [[r|code'] w2]; simpl in *;
    [done |].
  intros [= _ <-]. by rewrite El, Ec.
Qed.

Lemma usage_status f w :
  NArg f ≠ 0 \/ user f = "" -> (run f w).1 = 1.
Proof.
  intros Hbad. unfold run, main, mainImpl. rewrite !run_bind.
  assert (negb (NArg f =? 0)%Z = true \/
          (negb (NArg f =? 0)%Z = false /\ (len (user f) =? 0)%Z = true))
    as Hcase.
  { destruct (NArg f =? 0)%Z eqn:En; [| by left].
    right. split; [done |]. destruct Hbad as [Hn | ->]; [| done].
    by apply Z.eqb_eq in En. }
  destruct (negb (verbose f));
    destruct Hcase as [-> | [-> ->]]; reflexivity.
Qed.

Lemma exits_one_fetch_and_report f : exits_one (fetch_and_report f).
Proof.
  unfold fetch_and_report. apply exits_one_bind.
  - destruct (negb _); [apply exits_one_fetchMore |].
    apply exits_one_val. by eexists _, _.
  - intros [err|]; apply exits_one_val; intros w; [by eexists _, _ |].
    rewrite run_bind. simpl. rewrite run_bind, report_eq. by eexists _, _.
Qed.

(** X15.  Once [flag.Parse] has returned, whatever the flag values [f] it
    returned, the process ends with status 0 or 1.  When it ends with
    status 0, it has printed the report of the user's history as the cache
    holds it at the end, and it has handed the serialization of that cache
    to exactly one write of [restroom.json].  (A command line that
    [flag.Parse] rejects never gets here: the library ends that process
    itself.) *)
Theorem exit_status f w :
  ((run f w).1 = 0 \/ (run f w).1 = 1) /\
  ((run f w).1 = 0 ->
   exists b,
     Marshal (heap (run f w).2) = inl b /\
     written (run f w).2 = written w ++ [("restroom.json", b)] /\
     stdout (run f w).2 =
       stdout w ++
       let h := history (heap (run f w).2) (user f) in
       report_lines (Z.of_nat (length h)) (aggregate h)).
Proof.
  destruct (decide (NArg f = 0 /\ user f ≠ "")) as [[Hn Hu] | Hbad].
  2:{ rewrite usage_status.
      - split; [by right | done].
      - destruct (decide (NArg f = 0)); [| by left].
        right. destruct (decide (user f = "")); [done |]. by destruct Hbad. }
  rewrite run_eq by done.
  destruct (loaded_eq f w) as (c & lg & El & _).
  pose proof (exits_one_fetch_and_report f (loaded f w)) as Hex.
  pose proof (fetch_and_report_none f (loaded f w)) as Hnone.
  destruct (fetch_and_report f (loaded f w)) as [[r|code] w1].
  2:{ rewrite (Hex code w1 eq_refl). split; [by right | done]. }
  rewrite save_eq.
  destruct (Marshal (heap w1)) as [b|err] eqn:Em;
    [| split; [by right | done]].
  destruct r as [err|]; [split; [by right | done] |].
  split; [by left |]. intros _.
  destruct (Hnone w1 eq_refl) as (Ew & Eo).
  exists b. destruct (write_error w1); simpl;
    rewrite Em, Ew, Eo, El; done.
Qed.

(** ** Quiet runs *)

#[local] Instance quiet_preorder : PreOrder quiet.
Proof.
  split.
  - intros w Hq. done.
  - intros w1 w2 w3 H12 H23 Hq. destruct (H12 Hq) as [Hq2 E2].
    destruct (H23 Hq2) as [Hq3 E3]. split; [done | congruence].
Qed.

Lemma quiet_log_Printf f a : keeps quiet (log_Printf f a).
Proof. apply keeps_modify. intros w Hq. unfold logged. by rewrite Hq. Qed.

Lemma quiet_log_Fatalf {A} f a : keeps quiet (log_Fatalf (A := A) f a).
Proof.
  unfold log_Fatalf. apply keeps_bind; [apply _ | apply quiet_log_Printf |].
  intros _. apply keeps_exit, _.
Qed.

Lemma quiet_merge user timeline ids : keeps quiet (merge user timeline ids).
Proof.
  revert ids. induction timeline as [|tweet timeline IH]; intros ids; simpl.
  - apply keeps_ret, _.
  - case_decide; [apply IH |].
    destruct (CreatedAtTime tweet) as [t|err]; [| apply quiet_log_Fatalf].
    apply keeps_bind; [apply _ | | intros _; apply IH].
    apply keeps_modify. by intros w Hq.
Qed.

Lemma quiet_iteration user st : keeps quiet (iteration user st).
Proof.
  unfold iteration, with_cursor.
  apply keeps_bind; [apply _ | |].
  { apply keeps_bind; [apply _ | apply keeps_gets, _ |].
    intros c. destruct (last _); [| apply keeps_ret, _].
    apply keeps_bind; [apply _ | apply quiet_log_Printf |].
    intros _. apply keeps_ret, _. }
  intros v'. apply keeps_bind; [apply _ | apply quiet_log_Printf |].
  intros _. apply keeps_bind; [apply _ | by intros w Hq |].
  intros [timeline err].
  apply keeps_bind; [apply _ | apply quiet_log_Printf |]. intros _.
  assert (keeps quiet
            (if bool_decide (timeline = []) || bool_decide (is_Some err)
             then mret Break
             else ids ← merge user timeline (ids st);
                  mret (Next (mkLocals v' false ids)))) as Hrest.
  { destruct (_ || _); [apply keeps_ret, _ |].
    apply keeps_bind; [apply _ | apply quiet_merge |].
    intros i. apply keeps_ret, _. }
  destruct err as [e|]; [destruct (first st) |]; try exact Hrest.
  apply keeps_ret, _.
Qed.

Lemma quiet_loop n user st : keeps quiet (loop n user st).
Proof.
  revert st. induction n as [|n IH]; intros st; simpl.
  - apply keeps_ret, _.
  - apply keeps_bind; [apply _ | apply quiet_iteration |].
    intros [st'| |err]; [apply IH | apply keeps_ret, _ | apply keeps_ret, _].
Qed.

Lemma quiet_fetchMore user ck cs tok ts :
  keeps quiet (fetchMore user ck cs tok ts).
Proof.
  unfold fetchMore. destruct (_ || _); [apply keeps_ret, _ |].
  apply keeps_bind; [apply _ | |].
  { intros w Hq.
    destruct (connect_spec ck cs tok ts w) as (cons & sess & ->). done. }
  intros _. apply keeps_defer; [apply _ | | apply quiet_loop].
  apply keeps_modify. by intros w Hq.
Qed.

Lemma quiet_fetch_and_report f : keeps quiet (fetch_and_report f).
Proof.
  unfold fetch_and_report. apply keeps_bind; [apply _ | |].
  { destruct (negb _); [apply quiet_fetchMore | apply keeps_ret, _]. }
  intros [err|]; [apply keeps_ret, _ |].
  intros w Hq. rewrite run_bind. simpl. rewrite run_bind, report_eq. done.
Qed.

Lemma quiet_save : keeps quiet save.
Proof.
  intros w Hq. rewrite save_eq.
  destruct (Marshal (heap w)) as [b|err].
  - by destruct (write_error w).
  - simpl. unfold logged. by rewrite Hq.
Qed.

Lemma exits_one_save : exits_one save.
Proof.
  intros w code w'. rewrite save_eq.
  destruct (Marshal (heap w)) as [b|err]; [done |]. by intros [= <- _].
Qed.

Lemma exits_one_defer {A} (d : M unit) (m : M A) :
  exits_one d -> exits_one m -> exits_one (defer d m).
Proof.
  intros Hd Hm. unfold defer. apply exits_one_bind; [done |].
  intros a. apply exits_one_bind; [done |].
  intros _. apply exits_one_val. by eexists _, _.
Qed.

Lemma exits_one_mainImpl f : exits_one (mainImpl f).
Proof.
  unfold mainImpl. apply exits_one_bind.
  { destruct (negb _); apply exits_one_val; by eexists _, _. }
  intros _.
  destruct (negb _); [apply exits_one_val; by eexists _, _ |].
  destruct (_ =? _)%Z; [apply exits_one_val; by eexists _, _ |].
  apply exits_one_bind.
  - apply exits_one_val. intros w. rewrite load_eq. by eexists _, _.
  - intros _. apply exits_one_defer;
      [apply exits_one_save | apply exits_one_fetch_and_report].
Qed.

(** X16.  Once [flag.Parse] has returned with [-v] not given, stderr is
    settled by how [mainImpl] ends.  When it returns an error, the process
    has printed exactly one line there, the one with which [main] reports
    that error, and ends with status 1.  When it returns nil, the process
    has printed nothing there and ends with status 0.  When the process
    ends inside [mainImpl], which only [log.Fatalf] brings about (a
    timestamp that does not parse, a serialization failure), it has
    printed nothing at all there and ends with status 1. *)
Theorem quiet_stderr f w :
  verbose f = false ->
  match (mainImpl f w).1 with
  | Val (Some err) =>
      (run f w).1 = 1 /\
      stderr (run f w).2 = stderr w ++ [failure_line err]
  | Val None =>
      (run f w).1 = 0 /\ stderr (run f w).2 = stderr w
  | Exit code =>
      code = 1 /\ (run f w).1 = 1 /\ stderr (run f w).2 = stderr w
  end.
Proof.
  intros Hv.
  assert (stderr (mainImpl f w).2 = stderr w) as Em.
  { unfold mainImpl. rewrite Hv, run_bind. simpl.
    destruct (negb (NArg f =? 0)%Z); [done |].
    destruct (len (user f) =? 0)%Z; [done |].
    assert (keeps quiet (load;; defer save (fetch_and_report f))) as Hk.
    { apply keeps_bind; [apply _ | |].
      - intros w0 Hq. by rewrite load_eq.
      - intros _. apply keeps_defer;
          [apply _ | apply quiet_save | apply quiet_fetch_and_report]. }
    by destruct (Hk (set_logging false w)). }
  pose proof (exits_one_mainImpl f w) as Hex.
  unfold run, main. rewrite run_bind.
  destruct (mainImpl f w) as [[[err|]|code] w1]; simpl in *.
  - by rewrite Em.
  - done.
  - by rewrite (Hex code w1 eq_refl).
Qed.

(** ** Saving and loading *)

(** X17.  What [save] writes is what [load] reads.  When the cache
    serializes to [b] and the file can be written, [save] followed by
    [load] returns; [restroom.json] then holds exactly [b], which was
    handed to one write, and no other file has changed; the cache that
    [load] returns is the one that any process starting with [b] in
    [restroom.json] loads; and it is the cache that was saved whenever the
    decoder gives back, from [b], the user mapping that was serialized.
    That the decoder does so for the bytes of [json.Marshal] is a property
    of the library, and stays a condition here. *)
Theorem save_then_load w b :
  Marshal (heap w) = inl b -> write_error w = None ->
  exists w',
    (save;; load) w = (Val tt, w') /\
    files w' = <["restroom.json" := b]> (files w) /\
    written w' = written w ++ [("restroom.json", b)] /\
    (forall w0, files w0 !! "restroom.json" = Some b ->
                heap (load w0).2 = heap w') /\
    (forall err, Decode b ∅ = Stored (Some (Users (heap w))) err ->
                 heap w' = heap w).
Proof.
  intros Hm Hw. rewrite run_bind, save_eq, Hm, Hw. cbv zeta iota beta.
  rewrite load_eq. eexists. split; [reflexivity |]. simpl.
  rewrite lookup_insert_eq. split; [done |]. split; [done |]. split.
  - intros w0 Hf. by rewrite load_eq, Hf.
  - intros err ->. by destruct (heap w).
Qed.

(** X18.  When the fetch step ends the process (a timestamp that does not
    parse), the process ends right there with status 1: the deferred [save]
    and [api.Close] do not run, so nothing is handed to
    [ioutil.WriteFile], the files stay as they were, the session stays
    open, and no report is printed. *)
Theorem fatal_exit_skips_save f w code w1 :
  NArg f = 0 -> user f ≠ "" -> token f ≠ "" ->
  fetchMore (user f) (consumerKey f) (consumerSecret f) (token f)
            (tokenSecret f) (loaded f w) = (Exit code, w1) ->
  run f w = (1, w1) /\
  written w1 = written w /\
  files w1 = files w /\
  stdout w1 = stdout w /\
  sessions w1 = (token f, tokenSecret f) :: sessions w.
Proof.
  intros Hn Hu Ht Hf.
  destruct (loaded_eq f w) as (c & lg & El & _).
  pose proof (exits_one_fetchMore _ _ _ _ _ _ _ _ Hf) as ->.
  pose proof (fetchMore_blind files files_blind (user f) (consumerKey f)
                (consumerSecret f) (token f) (tokenSecret f) (loaded f w))
    as Ef.
  pose proof (fetchMore_blind written written_blind (user f)
                (consumerKey f) (consumerSecret f) (token f)
                (tokenSecret f) (loaded f w)) as Ew.
  pose proof (fetchMore_blind stdout stdout_blind (user f)
                (consumerKey f) (consumerSecret f) (token f)
                (tokenSecret f) (loaded f w)) as Eo.
  pose proof (fetchMore_exit_session _ _ _ _ _ _ _ _ Hf) as Es.
  unfold same in Ef, Ew, Eo.
  rewrite Hf in *. simpl in *.
  rewrite run_eq, fetch_and_report_eq, Hf by done.
  rewrite Ef, Ew, Eo, Es, El. done.
Qed.

End More.

(** * The further properties on concrete runs *)

Section MoreRuns.
#[local] Existing Instance Demo.libs.

Lemma usage_error_witness :
  let f := mkFlags "bob" true "" "" "tok" "sec" 1 in
  let w := Demo.boot ∅ None Demo.refuse in
  exists w',
    run f w = (1, w') /\
    stderr w' = stderr w ++ [failure_line "unexpected argument"] /\
    files w' = files w /\ written w' = written w /\
    requests w' = requests w /\ heap w' = heap w /\
    stdout w' = stdout w.
Proof.
  intros f w. apply (usage_error f w). left. discriminate.
Defined.

Lemma missing_token_secret_witness :
  let f := Demo.flags_for "bob" "tok" "" in
  let w := Demo.boot ∅ None Demo.refuse in
  exists w',
    run f w = (1, w') /\
    requests w' = requests w /\
    sessions w' = sessions w /\
    heap w' = heap (loaded f w) /\
    stdout w' = stdout w /\
    written w' =
      written w ++
      match Marshal (heap (loaded f w)) with
      | inl b => [("restroom.json", b)]
      | inr _ => []
      end.
Proof.
  intros f w. apply (missing_token_secret f w);
    [reflexivity | discriminate | discriminate | reflexivity].
Defined.

Lemma offline_report_witness :
  let f := Demo.flags_for "alice" "" "" in
  exists b w',
    Marshal (heap (loaded f Demo.paging)) = inl b /\
    run f Demo.paging = (0, w') /\
    requests w' = requests Demo.paging /\
    sessions w' = sessions Demo.paging /\
    heap w' = heap (loaded f Demo.paging) /\
    stderr w' = stderr Demo.paging /\
    written w' = written Demo.paging ++ [("restroom.json", b)] /\
    stdout w' =
      stdout Demo.paging ++
      let h := history (heap (loaded f Demo.paging)) (user f) in
      report_lines (Z.of_nat (length h)) (aggregate h).
Proof.
  intros f.
  assert (exists b, Marshal (heap (loaded f Demo.paging)) = inl b) as [b Hb].
  { eexists. vm_compute. reflexivity. }
  destruct (offline_report f Demo.paging b) as (w' & Hw);
    [reflexivity | discriminate | reflexivity | exact Hb |].
  exists b, w'. split; [exact Hb | exact Hw].
Defined.

Lemma request_parameters_witness :
  exists req,
    requests (fetchMore "bob" "" "" "tok" "sec" Demo.flaky).2 !! 1%nat =
      Some req /\
    req !! "screen_name" = Some ["bob"] /\
    req !! "count" = Some ["200"] /\
    req !! "include_rts" = Some ["1"] /\
    req !! "exclude_replies" = Some ["0"] /\
    req !! "trim_user" = Some ["1"] /\
    req !! "contributor_details" = Some ["0"].
Proof.
  assert (exists req,
            requests (fetchMore "bob" "" "" "tok" "sec" Demo.flaky).2
              !! 1%nat = Some req) as [req Hr].
  { eexists. vm_compute. reflexivity. }
  destruct (request_parameters "bob" "" "" "tok" "sec" Demo.flaky 1 req Hr)
    as (H1 & H2 & H3 & H4 & H5 & H6 & _); [simpl; lia |].
  exists req. done.
Defined.

Lemma later_requests_have_cursor_witness :
  exists req st' w' t,
    requests (fetchMore "bob" "" "" "tok" "sec" Demo.flaky).2 !! 1%nat =
      Some req /\
    pass 1 "bob" (init "bob") (connect "" "" "tok" "sec" Demo.flaky).2 =
      Some (st', w') /\
    last (history (heap w') "bob") = Some t /\
    req !! "max_id" = Some [FormatInt (Int64.sub (Id t) 1)].
Proof.
  assert (exists req,
            requests (fetchMore "bob" "" "" "tok" "sec" Demo.flaky).2
              !! 1%nat = Some req) as [req Hr].
  { eexists. vm_compute. reflexivity. }
  destruct (later_requests_have_cursor "bob" "" "" "tok" "sec" Demo.flaky 1
              req Hr) as (st' & w' & t & Hp & Hl & Hm); [simpl; lia |].
  exists req, st', w', t. done.
Defined.

Lemma ceiling_reached_witness :
  let w := Demo.boot ∅ None Demo.endless in
  exists st w1 w',
    pass 10 "bob" (init "bob") (connect "" "" "tok" "sec" w).2 =
      Some (st, w1) /\
    fetchMore "bob" "" "" "tok" "sec" w = (Val None, w') /\
    heap w' = heap w1 /\
    requests w' = requests w1 /\
    length (requests w') = (length (requests w) + 10)%nat.
Proof.
  intros w.
  assert (exists st w1,
            pass 10 "bob" (init "bob") (connect "" "" "tok" "sec" w).2 =
              Some (st, w1)) as (st & w1 & Hp).
  { eexists _, _. vm_compute. reflexivity. }
  destruct (ceiling_reached "bob" "" "" "tok" "sec" w st w1) as (w' & Hw);
    [discriminate | discriminate | exact Hp |].
  exists st, w1, w'. split; [exact Hp | exact Hw].
Defined.

Lemma merged_pages_are_recorded_witness :
  exists st w1 req,
    pass 1 "bob" (init "bob") Demo.flaky = Some (st, w1) /\
    requests w1 !! 0%nat = Some req /\
    9 ∈ Id <$> history (heap w1) "bob".
Proof.
  assert (exists st w1 req,
            pass 1 "bob" (init "bob") Demo.flaky = Some (st, w1) /\
            requests w1 !! 0%nat = Some req) as (st & w1 & req & Hp & Hr).
  { eexists _, _, _. split; vm_compute; reflexivity. }
  exists st, w1, req. split; [exact Hp |]. split; [exact Hr |].
  apply (merged_pages_are_recorded "bob" 1 Demo.flaky st w1 0 req
           (Demo.tweet Demo.friday14 9 "") Hp Hr).
  - simpl. lia.
  - left.
Defined.

Lemma aggregate_counts_witness :
  hours (aggregate Demo.alice) !! 3%nat = Some 2 /\
  weekdays (aggregate Demo.alice) !! Z.to_nat Monday = Some 2.
Proof.
  destruct (aggregate_counts Demo.alice) as (_ & _ & Hh & Hd).
  { unfold Int64.max. simpl. lia. }
  split.
  - apply (Hh 3). lia.
  - apply (Hd Monday). unfold Monday. lia.
Defined.

Lemma aggregate_place_counts_witness :
  placesMap (aggregate Demo.alice) !! "NYC" = Some 1 /\
  placesMap (aggregate Demo.alice) !! "" = None.
Proof.
  split.
  - apply (aggregate_place_counts Demo.alice). unfold Int64.max. simpl. lia.
  - apply (aggregate_place_counts Demo.alice). unfold Int64.max. simpl. lia.
Defined.

Lemma save_then_load_witness :
  let w := set_heap Demo.alice_cache (Demo.boot ∅ None Demo.refuse) in
  exists w',
    (@save Demo.libs_back;; @load Demo.libs_back) w = (Val tt, w') /\
    files w' = {["restroom.json" := Demo.alice_json]} /\
    written w' = [("restroom.json", Demo.alice_json)] /\
    heap w' = heap w.
Proof.
  intros w.
  destruct (@save_then_load Demo.libs_back w Demo.alice_json)
    as (w' & Hr & Hf & Hwr & _ & Hh).
  { vm_compute. reflexivity. }
  { reflexivity. }
  exists w'. split; [exact Hr |]. split; [exact Hf |]. split; [exact Hwr |].
  apply (Hh None). vm_compute. reflexivity.
Defined.

Lemma fatal_exit_skips_save_witness :
  let f := Demo.flags_for "bob" "tok" "sec" in
  let w := Demo.boot ∅ None (Demo.serve [Demo.bad_page]) in
  exists w1,
    fetchMore "bob" "" "" "tok" "sec" (loaded f w) = (Exit 1, w1) /\
    Id <$> history (heap w1) "bob" = [20] /\
    run f w = (1, w1) /\
    written w1 = written w /\
    files w1 = files w /\
    stdout w1 = stdout w /\
    sessions w1 = ("tok", "sec") :: sessions w.
Proof.
  intros f w.
  assert (exists w1,
            fetchMore "bob" "" "" "tok" "sec" (loaded f w) = (Exit 1, w1) /\
            Id <$> history (heap w1) "bob" = [20]) as (w1 & Hf & Hh).
  { eexists. split; vm_compute; reflexivity. }
  exists w1. split; [exact Hf |]. split; [exact Hh |].
  apply (fatal_exit_skips_save f w 1 w1);
    [reflexivity | discriminate | discriminate | exact Hf].
Defined.

Lemma quiet_stderr_witness :
  let f := mkFlags "bob" false "" "" "tok" "sec" 0 in
  let w := Demo.boot ∅ None (Demo.serve [Demo.bad_page]) in
  (mainImpl f w).1 = Exit 1 /\
  (run f w).1 = 1 /\
  stderr (run f w).2 = stderr w.
Proof.
  intros f w.
  assert ((mainImpl f w).1 = Exit 1) as E by (vm_compute; reflexivity).
  pose proof (quiet_stderr f w eq_refl) as Hq.
  rewrite E in Hq. destruct Hq as (_ & Hs & He).
  split; [exact E |]. split; [exact Hs | exact He].
Defined.

End MoreRuns.
